(** * The Hurl-to-Bruno converter (api/hurl-to-bruno.js), embedded in Rocq

    The converter reads line-oriented Hurl test files, parses them into
    request records, and writes a Bruno collection.  This file embeds the
    script function by function and states the properties of its
    specification over that embedding.

    Conventions of the embedding.
    - A JavaScript string is the list of its UTF-16 code units ([list N]).
    - A value that may be [null] is an [option].
    - A call that may throw returns an [outcome]; [process.exit] is an
      outcome of its own, because it ends the process without unwinding.
    - The file system is a tree of directories and regular files. *)

From Stdlib Require Import NArith ZArith String Ascii Lia.
From Stdlib Require Import DecimalString DecimalN DecimalPos.
From stdpp Require Import base option list gmap.

#[local] Set Warnings "-register-all".
#[local] Open Scope N_scope.

(** ** JavaScript strings *)

Abbreviation str := (list N).

(** Literals.  Inside a literal an apostrophe stands for the double quote
    (code unit 34); no literal of the script contains an apostrophe. *)
Definition js (s : string) : str :=
  map (fun a => if Ascii.eqb a "'"%char then 34 else N_of_ascii a)
      (list_ascii_of_string s).

Definition str_eqb (a b : str) : bool := bool_decide (a = b).

(** The line feed, and the double quote. *)
Definition nl : str := [10].
Definition dq : str := [34].

(** [WhiteSpace] and [LineTerminator] of ECMAScript: what [String.prototype.trim]
    strips and what the class [\s] matches. *)
Definition isSpace (c : N) : bool :=
  ((9 <=? c) && (c <=? 13)) || (c =? 32) || (c =? 160) || (c =? 0x1680)
  || ((0x2000 <=? c) && (c <=? 0x200A)) || (c =? 0x2028) || (c =? 0x2029)
  || (c =? 0x202F) || (c =? 0x205F) || (c =? 0x3000) || (c =? 0xFEFF).

(** The class [\d]. *)
Definition isDigit (c : N) : bool := (48 <=? c) && (c <=? 57).
Definition isUpper (c : N) : bool := (65 <=? c) && (c <=? 90).
Definition isLower (c : N) : bool := (97 <=? c) && (c <=? 122).
(** The class [[A-Za-z]]. *)
Definition isAlpha (c : N) : bool := isUpper c || isLower c.
(** The class [\w]. *)
Definition isWord (c : N) : bool := isAlpha c || isDigit c || (c =? 95).
(** The class [[\w-]]. *)
Definition isWordOrDash (c : N) : bool := isWord c || (c =? 45).
(** The class [.] (no [s] flag): anything but a line terminator. *)
Definition isDot (c : N) : bool :=
  negb ((c =? 10) || (c =? 13) || (c =? 0x2028) || (c =? 0x2029)).
(** The class of every code unit but the double quote. *)
Definition notQuote (c : N) : bool := negb (c =? 34).
(** The class [[^a-z0-9]]. *)
Definition notSlugChar (c : N) : bool := negb (isLower c || isDigit c).

Fixpoint dropWhile (f : N -> bool) (s : str) : str :=
  match s with
  | [] => []
  | c :: s' => if f c then dropWhile f s' else s
  end.

Definition trimStart (s : str) : str := dropWhile isSpace s.
Definition trimEnd (s : str) : str := rev (dropWhile isSpace (rev s)).
Definition trim (s : str) : str := trimEnd (trimStart s).

(** [s.split(sep)] for a separator of one code unit. *)
Fixpoint split (sep : N) (s : str) : list str :=
  match s with
  | [] => [[]]
  | c :: s' =>
      if c =? sep then [] :: split sep s'
      else match split sep s' with
           | l :: ls => (c :: l) :: ls
           | [] => [[c]]
           end
  end.

(** [parts.join(sep)]. *)
Fixpoint join (sep : str) (parts : list str) : str :=
  match parts with
  | [] => []
  | [x] => x
  | x :: rest => x ++ sep ++ join sep rest
  end.

Fixpoint startsWith (s pre : str) : bool :=
  match pre, s with
  | [], _ => true
  | _ :: _, [] => false
  | a :: pre', b :: s' => (a =? b) && startsWith s' pre'
  end.

Definition endsWith (s suf : str) : bool := startsWith (rev s) (rev suf).

Definition len (s : str) : Z := Z.of_nat (length s).

(** [s.slice(a, b)]: a negative index counts from the end; both are clamped. *)
Definition slice (s : str) (a b : Z) : str :=
  let from := if (a <? 0)%Z then Z.max (len s + a) 0 else Z.min a (len s) in
  let to := if (b <? 0)%Z then Z.max (len s + b) 0 else Z.min b (len s) in
  take (Z.to_nat (to - from)) (drop (Z.to_nat from) s).

(** [s.slice(a)]. *)
Definition sliceFrom (s : str) (a : Z) : str := slice s a (len s).

Fixpoint indexOfAt (s needle : str) (i : Z) : Z :=
  if startsWith s needle then i
  else match s with
       | [] => (-1)%Z
       | _ :: s' => indexOfAt s' needle (i + 1)
       end.

(** [s.indexOf(needle, from)]. *)
Definition indexOf (s needle : str) (from : Z) : Z :=
  let k := Z.min (Z.max from 0) (len s) in
  indexOfAt (drop (Z.to_nat k) s) needle k.

(** [s.lastIndexOf(c)] for one code unit. *)
Fixpoint lastIndexOfAt (s : str) (c : N) (i : Z) (found : Z) : Z :=
  match s with
  | [] => found
  | d :: s' => lastIndexOfAt s' c (i + 1) (if d =? c then i else found)
  end.

Definition lastIndexOf (s : str) (c : N) : Z := lastIndexOfAt s c 0 (-1).

Definition includes (s needle : str) : bool := (0 <=? indexOf s needle 0)%Z.

(** [String.prototype.toLowerCase], as far as the script can observe it: the
    script lower-cases a verb and the input of [slugify], which afterwards
    only tells [a-z0-9] from the rest.  Besides [A-Z] exactly two code
    points lower-case into ASCII: U+212A (Kelvin sign) to [k], and U+0130 to
    [i] followed by U+0307.  Every other code unit lower-cases to code units
    outside ASCII and is left as it is. *)
Definition lowerUnit (c : N) : str :=
  if isUpper c then [c + 32]
  else if c =? 0x212A then [107]
  else if c =? 0x130 then [105; 0x307]
  else [c].

Definition toLowerCase (s : str) : str := concat (map lowerUnit s).

(** Truthiness of a string that may be [null]. *)
Definition truthy (o : option str) : bool :=
  match o with
  | Some (_ :: _) => true
  | _ => false
  end.

(** [String(n)] for a non-negative integer that a double holds exactly and
    prints in plain decimal: [n] below [2^53].  That covers every sequence
    number, [Date.now()] and every status code of up to fifteen digits.
    The script keeps a larger number as a rounded double and prints it
    differently (in exponent form from [1e21] on); this definition does not
    follow it there, and what is proved about printed status codes is
    stated below [2^53]. *)
Definition numberToString (n : N) : str :=
  js (NilEmpty.string_of_uint (N.to_uint n)).

(** [s.padStart(2, '0')]. *)
Definition padStart2 (s : str) : str :=
  match s with
  | [] => js "00"
  | [c] => [48; c]
  | _ => s
  end.

(** [parseInt(s, 10)] on a string of decimal digits that spell a number
    below [2^53]: the number itself.  For more digits the script gets the
    nearest double, not the number; this definition does not follow it
    there, and what is proved about parsed status codes is stated below
    [2^53]. *)
Definition parseInt (s : str) : N :=
  fold_left (fun acc c => 10 * acc + (c - 48)) s 0.

(** The default [Array.prototype.sort] order on strings: by code units. *)
Fixpoint str_leb (a b : str) : bool :=
  match a, b with
  | [], _ => true
  | _ :: _, [] => false
  | x :: a', y :: b' => (x <? y) || ((x =? y) && str_leb a' b')
  end.

Fixpoint insertSorted (x : str) (l : list str) : list str :=
  match l with
  | [] => [x]
  | y :: l' => if str_leb x y then x :: l else y :: insertSorted x l'
  end.

Definition sort (l : list str) : list str := foldr insertSorted [] l.

(** ** Regular expressions

    The patterns of the script use literals, character classes, [?], greedy
    [*] and [+] over a class, alternation and capture groups that do not
    nest.  [exec] is the backtracking matcher of ECMAScript restricted to
    these: alternatives are tried left to right, repetition gives back one
    code unit at a time, and a group records what it matched.

    The comments quote each pattern as the script writes it, but for two
    changes that keep them inside a comment: an apostrophe stands for the
    double quote, and a blank separates a star from a closing parenthesis. *)

Inductive regex :=
| Lit (s : str)
| Cls (p : N -> bool)
| Opt (r : regex)
| Star (p : N -> bool)
| Plus (p : N -> bool)
| Alt (r1 r2 : regex)
| Seq (r1 r2 : regex)
| Grp (r : regex).

Definition cont := str -> list str -> option (list str).

Fixpoint star (p : N -> bool) (s : str) (caps : list str) (k : cont)
  : option (list str) :=
  match s with
  | c :: s' =>
      if p c then
        match star p s' caps k with
        | Some r => Some r
        | None => k s caps
        end
      else k s caps
  | [] => k s caps
  end.

Fixpoint exec (r : regex) (s : str) (caps : list str) (k : cont)
  : option (list str) :=
  match r with
  | Lit l => if startsWith s l then k (drop (length l) s) caps else None
  | Cls p =>
      match s with
      | c :: s' => if p c then k s' caps else None
      | [] => None
      end
  | Opt r1 =>
      match exec r1 s caps k with
      | Some res => Some res
      | None => k s caps
      end
  | Star p => star p s caps k
  | Plus p =>
      match s with
      | c :: s' => if p c then star p s' caps k else None
      | [] => None
      end
  | Alt r1 r2 =>
      match exec r1 s caps k with
      | Some res => Some res
      | None => exec r2 s caps k
      end
  | Seq r1 r2 => exec r1 s caps (fun s' caps' => exec r2 s' caps' k)
  | Grp r1 =>
      exec r1 s caps
        (fun s' caps' => k s' (caps' ++ [take (length s - length s') s]))
  end.

(** [s.match(/^r$/)]: the captures, in order, when the whole of [s] matches. *)
Definition matchAll (r : regex) (s : str) : option (list str) :=
  exec r s [] (fun s' caps => match s' with [] => Some caps | _ => None end).

(** [/^r$/.test(s)]. *)
Definition test (r : regex) (s : str) : bool :=
  match matchAll r s with Some _ => true | None => false end.

Definition group (caps : list str) (i : nat) : str := nth (i - 1) caps [].

Infix "~>" := Seq (at level 60, right associativity).

(** [GET|POST|PUT|DELETE|PATCH] *)
Definition reVerb : regex :=
  Alt (Lit (js "GET")) (Alt (Lit (js "POST")) (Alt (Lit (js "PUT"))
    (Alt (Lit (js "DELETE")) (Lit (js "PATCH"))))).

(** [/^(GET|POST|PUT|DELETE|PATCH)\s+(.+)$/] *)
Definition reMethod : regex :=
  Grp reVerb ~> Plus isSpace ~> Grp (Plus isDot).

(** [/^([A-Za-z][\w-]* )\s*:\s*(.+)$/] *)
Definition reHeader : regex :=
  Grp (Cls isAlpha ~> Star isWordOrDash)
  ~> Star isSpace ~> Lit (js ":") ~> Star isSpace ~> Grp (Plus isDot).

(** [/^HTTP\s+(\d+)$/] *)
Definition reStatus : regex :=
  Lit (js "HTTP") ~> Plus isSpace ~> Grp (Plus isDigit).

(** [/^(\w+)\s*:\s*jsonpath\s+'(.+)'$/] *)
Definition reCapture : regex :=
  Grp (Plus isWord) ~> Star isSpace ~> Lit (js ":") ~> Star isSpace
  ~> Lit (js "jsonpath") ~> Plus isSpace
  ~> Lit (js "'") ~> Grp (Plus isDot) ~> Lit (js "'").

(** ** The parser: [parseHurlFile] *)

(** What a call can end in: a value, an exception, or the end of the process
    ([process.exit(code)], which skips every pending [finally]). *)
Inductive exn := TypeError | SystemError.

Inductive outcome (A : Type) :=
| Ok (a : A)
| Throw (e : exn)
| Exit (code : N).
Arguments Ok {A} a.
Arguments Throw {A} e.
Arguments Exit {A} code.

Definition bind {A B} (o : outcome A) (f : A -> outcome B) : outcome B :=
  match o with
  | Ok a => f a
  | Throw e => Throw e
  | Exit c => Exit c
  end.

#[export] Instance outcome_ret : MRet outcome := @Ok.
#[export] Instance outcome_bind : MBind outcome := fun A B f o => bind o f.

Record Capture := { cname : str; jsonpath : str }.

Record Request := {
  comment : option str;
  method : option str;
  url : option str;
  headers : list (str * str);
  body : option str;
  statusCode : option N;
  asserts : list str;
  captures : list Capture
}.

(** The object literal the parser opens a record with. *)
Definition newRequest (c : option str) : Request :=
  {| comment := c; method := None; url := None; headers := []; body := None;
     statusCode := None; asserts := []; captures := [] |}.

Definition setMethodUrl (r : Request) (m u : str) : Request :=
  {| comment := comment r; method := Some m; url := Some u;
     headers := headers r; body := body r; statusCode := statusCode r;
     asserts := asserts r; captures := captures r |}.

Definition setBody (r : Request) (b : str) : Request :=
  {| comment := comment r; method := method r; url := url r;
     headers := headers r; body := Some b; statusCode := statusCode r;
     asserts := asserts r; captures := captures r |}.

Definition setStatusCode (r : Request) (n : N) : Request :=
  {| comment := comment r; method := method r; url := url r;
     headers := headers r; body := body r; statusCode := Some n;
     asserts := asserts r; captures := captures r |}.

(** [obj[k] = v] on a plain object whose keys are not integer-like: a new key
    goes last, an old key keeps its place. *)
Fixpoint setProp (o : list (str * str)) (k v : str) : list (str * str) :=
  match o with
  | [] => [(k, v)]
  | (k', v') :: o' =>
      if str_eqb k' k then (k, v) :: o' else (k', v') :: setProp o' k v
  end.

Definition setHeader (r : Request) (k v : str) : Request :=
  {| comment := comment r; method := method r; url := url r;
     headers := setProp (headers r) k v; body := body r;
     statusCode := statusCode r; asserts := asserts r;
     captures := captures r |}.

Definition pushAssert (r : Request) (a : str) : Request :=
  {| comment := comment r; method := method r; url := url r;
     headers := headers r; body := body r; statusCode := statusCode r;
     asserts := asserts r ++ [a]; captures := captures r |}.

Definition pushCapture (r : Request) (c : Capture) : Request :=
  {| comment := comment r; method := method r; url := url r;
     headers := headers r; body := body r; statusCode := statusCode r;
     asserts := asserts r; captures := captures r ++ [c] |}.

Inductive State := IDLE | HEADERS | BODY | RESPONSE | ASSERTS | CAPTURES.

Definition isBODY (s : State) : bool :=
  match s with BODY => true | _ => false end.

(** The local variables of [parseHurlFile]. *)
Record Parser := {
  requests : list Request;
  current : option Request;
  state : State;
  bodyLines : list str;
  braceDepth : Z
}.

Definition initial : Parser :=
  {| requests := []; current := None; state := IDLE; bodyLines := [];
     braceDepth := 0 |}.

Definition setCurrent (p : Parser) (c : option Request) : Parser :=
  {| requests := requests p; current := c; state := state p;
     bodyLines := bodyLines p; braceDepth := braceDepth p |}.

Definition setState (p : Parser) (s : State) : Parser :=
  {| requests := requests p; current := current p; state := s;
     bodyLines := bodyLines p; braceDepth := braceDepth p |}.

Definition setBodyLines (p : Parser) (l : list str) : Parser :=
  {| requests := requests p; current := current p; state := state p;
     bodyLines := l; braceDepth := braceDepth p |}.

Definition setBraceDepth (p : Parser) (d : Z) : Parser :=
  {| requests := requests p; current := current p; state := state p;
     bodyLines := bodyLines p; braceDepth := d |}.

Definition setRequests (p : Parser) (l : list Request) : Parser :=
  {| requests := l; current := current p; state := state p;
     bodyLines := bodyLines p; braceDepth := braceDepth p |}.

Definition finishBody (p : Parser) : Parser :=
  match current p, bodyLines p with
  | Some cur, _ :: _ =>
      setBraceDepth
        (setBodyLines
           (setCurrent p (Some (setBody cur (join nl (bodyLines p)))))
           [])
        0
  | _, _ => p
  end.

Definition pushCurrent (p : Parser) : Parser :=
  match current p with
  | Some _ =>
      let p1 := finishBody p in
      let p2 :=
        match current p1 with
        | Some cur =>
            if truthy (method cur) then setRequests p1 (requests p1 ++ [cur])
            else p1
        | None => p1
        end in
      setCurrent p2 None
  | None => p
  end.

(** A property access on [current]: a [TypeError] when it is [null]. *)
Definition onCurrent (p : Parser) (f : Request -> Request) : outcome Parser :=
  match current p with
  | Some cur => Ok (setCurrent p (Some (f cur)))
  | None => Throw TypeError
  end.

(** [trimmed.replace(/^#\s*/, empty)]: drops the hash and the blanks after it. *)
Definition stripHash (trimmed : str) : str :=
  match trimmed with
  | 35 :: rest => dropWhile isSpace rest
  | _ => trimmed
  end.

(** The brace tally of the body state: [+1] for each [{], [-1] for each [}].
    ([for (const ch of trimmed)] walks code points; neither brace is part of
    a surrogate pair, so walking code units counts the same.) *)
Definition countBraces (depth : Z) (trimmed : str) : Z :=
  fold_left
    (fun d ch => if ch =? 123 then (d + 1)%Z
                 else if ch =? 125 then (d - 1)%Z else d)
    trimmed depth.

(** One turn of the [for] loop over the lines. *)
Definition step (p : Parser) (line : str) : outcome Parser :=
  let trimmed := trim line in
  (* Blank line *)
  if str_eqb trimmed [] then
    Ok (if isBODY (state p) then setBodyLines p (bodyLines p ++ [line]) else p)
  (* Comment line *)
  else if startsWith trimmed (js "#") && negb (isBODY (state p)) then
    Ok (setState
          (setCurrent (pushCurrent p) (Some (newRequest (Some (stripHash trimmed)))))
          IDLE)
  else
    (* Method line *)
    match (if isBODY (state p) then None else matchAll reMethod trimmed) with
    | Some methodMatch =>
        let p1 :=
          match current p with
          | Some cur =>
              if truthy (method cur)
              then setCurrent (pushCurrent p) (Some (newRequest None))
              else p
          | None => setCurrent p (Some (newRequest None))
          end in
        bind (onCurrent p1 (fun cur =>
                setMethodUrl cur (group methodMatch 1) (group methodMatch 2)))
             (fun p2 => Ok (setState p2 HEADERS))
    | None =>
        (* Header line *)
        match (match state p with
               | HEADERS => matchAll reHeader trimmed
               | _ => None
               end) with
        | Some headerMatch =>
            onCurrent p (fun cur =>
              setHeader cur (group headerMatch 1) (group headerMatch 2))
        | None =>
            (* Start of JSON body *)
            if str_eqb trimmed (js "{")
               && match state p with HEADERS | IDLE => true | _ => false end
            then Ok (setBraceDepth (setBodyLines (setState p BODY) [line]) 1)
            (* Inside JSON body *)
            else if isBODY (state p) then
              let p1 := setBodyLines p (bodyLines p ++ [line]) in
              let p2 := setBraceDepth p1 (countBraces (braceDepth p1) trimmed) in
              Ok (if (braceDepth p2 =? 0)%Z
                  then setState (finishBody p2) IDLE
                  else p2)
            else
              (* HTTP status line *)
              match matchAll reStatus trimmed with
              | Some statusMatch =>
                  bind (onCurrent p (fun cur =>
                          setStatusCode cur (parseInt (group statusMatch 1))))
                       (fun p1 => Ok (setState p1 RESPONSE))
              | None =>
                  (* Sections *)
                  if str_eqb trimmed (js "[Asserts]") then Ok (setState p ASSERTS)
                  else if str_eqb trimmed (js "[Captures]") then Ok (setState p CAPTURES)
                  else
                    match state p with
                    | CAPTURES =>
                        match matchAll reCapture trimmed with
                        | Some captureMatch =>
                            onCurrent p (fun cur =>
                              pushCapture cur
                                {| cname := group captureMatch 1;
                                   jsonpath := group captureMatch 2 |})
                        | None => Ok p
                        end
                    | ASSERTS => onCurrent p (fun cur => pushAssert cur trimmed)
                    | _ => Ok p
                    end
              end
        end
    end.

Fixpoint feed (p : Parser) (lines : list str) : outcome Parser :=
  match lines with
  | [] => Ok p
  | line :: rest => bind (step p line) (fun p' => feed p' rest)
  end.

(** The parser on the lines of a file. *)
Definition parseLines (lines : list str) : outcome (list Request) :=
  bind (feed initial lines) (fun p => Ok (requests (pushCurrent p))).

(** [parseHurlFile], on the text [readFileSync] returned. *)
Definition parseHurlFile (text : str) : outcome (list Request) :=
  parseLines (split 10 text).

(** ** Names: [slugify], [folderName], [fileName] *)

(** [s.replace(/[^a-z0-9]+/g, '-')]: every maximal run becomes one dash. *)
Fixpoint dashRuns (inRun : bool) (s : str) : str :=
  match s with
  | [] => []
  | c :: s' =>
      if notSlugChar c
      then (if inRun then dashRuns true s' else 45 :: dashRuns true s')
      else c :: dashRuns false s'
  end.

(** [s.replace(/^-|-$/g, empty)]: a dash at the very start goes, and so does a
    dash at the very end of what is left. *)
Definition trimDashes (s : str) : str :=
  let s1 := match s with 45 :: s' => s' | _ => s end in
  match rev s1 with
  | 45 :: r => rev r
  | _ => s1
  end.

Definition slugify (s : str) : str :=
  trimDashes (dashRuns false (toLowerCase s)).

(** [basename(filename, '.hurl').replace(/_/g, '-')] for an entry name that
    ends in [.hurl] (the caller filters on it): the name without its last
    five code units, the empty string for the name [.hurl] itself. *)
Definition folderName (filename : str) : str :=
  map (fun c => if c =? 95 then 45 else c)
      (take (length filename - 5) filename).

(** A template [${x}] prints [null] for a null value. *)
Definition show (o : option str) : str := default (js "null") o.

(** [url.split('/').pop()]. *)
Definition lastSegment (u : str) : str := List.last (split 47 u) [].

(** A method call on a possibly null receiver. *)
Definition deref {A} (o : option A) : outcome A :=
  match o with
  | Some a => Ok a
  | None => Throw TypeError
  end.

Definition fileName (request : Request) (index : N)
    (method_ url_ : option str) : outcome str :=
  let nn := padStart2 (numberToString (index + 1)) in
  bind (if truthy (comment request)
        then Ok (slugify (default [] (comment request)))
        else
          bind (deref url_) (fun u =>
            let seg := List.hd [] (split 63 (lastSegment u)) in
            let pathEnd := match seg with [] => js "request" | _ => seg end in
            Ok (slugify (show method_ ++ js "-" ++ pathEnd))))
       (fun slug => Ok (nn ++ js "-" ++ slug ++ js ".bru")).

(** ** Value and assertion translation *)

Definition stripDollar (jp : str) : str :=
  if startsWith jp (js "$.") then sliceFrom jp 2 else jp.

Definition jsonpathToJs (jp : str) : str := js "res.body." ++ stripDollar jp.

Record PropertyCheck := { parent : str; prop : str }.

Definition jsonpathToPropertyCheck (jp : str) : PropertyCheck :=
  let path := stripDollar jp in
  let lastDot := lastIndexOf path 46 in
  if (lastDot =? -1)%Z then {| parent := js "res.body"; prop := path |}
  else {| parent := js "res.body." ++ slice path 0 lastDot;
          prop := sliceFrom path (lastDot + 1) |}.

(** What [transformValue] returns; a flag the object literal leaves out is
    [false] here (it reads as [undefined], which is falsy). *)
Record Value := { expr : str; isNull : bool; isLiteral : bool }.

Definition literal (e : str) : Value :=
  {| expr := e; isNull := false; isLiteral := true |}.

(** [/^-?\d+$/] *)
Definition reInt : regex := Opt (Lit (js "-")) ~> Plus isDigit.
(** [/^-?\d+\.\d+$/] *)
Definition reDec : regex :=
  Opt (Lit (js "-")) ~> Plus isDigit ~> Lit (js ".") ~> Plus isDigit.
(** [/^\{\{(\w+)\}\}$/] *)
Definition reVar : regex := Lit (js "{{") ~> Grp (Plus isWord) ~> Lit (js "}}").

Definition getVar (name : str) : str :=
  js "bru.getVar('" ++ name ++ js "')".

Definition quoted (s : str) : str := dq ++ s ++ dq.

(** The [while (remaining.length > 0)] loop of [transformValue], which
    collects the parts of the concatenation.  Every turn shortens
    [remaining], so [fuel = remaining.length] turns are enough
    ([concatParts_fuel] below). *)
Fixpoint concatParts (fuel : nat) (remaining : str) : list str :=
  match fuel with
  | O => []
  | S fuel' =>
      if (0 <? len remaining)%Z then
        let varIdx := indexOf remaining (js "{{") 0 in
        if (varIdx =? -1)%Z then [quoted remaining]
        else
          let endIdx := indexOf remaining (js "}}") varIdx in
          let varName := slice remaining (varIdx + 2) endIdx in
          (if (0 <? varIdx)%Z then [quoted (slice remaining 0 varIdx)] else [])
          ++ getVar varName
          :: concatParts fuel' (sliceFrom remaining (endIdx + 2))
      else []
  end.

Definition transformValue (rawValue : str) : Value :=
  if str_eqb rawValue (js "null")
  then {| expr := js "null"; isNull := true; isLiteral := false |}
  else if str_eqb rawValue (js "true") then literal (js "true")
  else if str_eqb rawValue (js "false") then literal (js "false")
  else if test reInt rawValue then literal rawValue
  else if test reDec rawValue then literal rawValue
  else
    match matchAll reVar rawValue with
    | Some bareVarMatch => literal (getVar (group bareVarMatch 1))
    | None =>
        if startsWith rawValue dq && endsWith rawValue dq then
          let inner := slice rawValue 1 (-1) in
          match matchAll reVar inner with
          | Some pureVarMatch => literal (getVar (group pureVarMatch 1))
          | None =>
              if includes inner (js "{{")
              then literal (join (js " + ") (concatParts (length inner) inner))
              else literal rawValue
          end
        else literal rawValue
    end.

(** [/^jsonpath\s+'([^']+)'\s+(.+)$/] *)
Definition reJsonpath : regex :=
  Lit (js "jsonpath") ~> Plus isSpace ~> Lit dq ~> Grp (Plus notQuote)
  ~> Lit dq ~> Plus isSpace ~> Grp (Plus isDot).

Definition reCmp : regex := Alt (Lit (js "==")) (Lit (js ">=")).

(** [/^count\s+(==|>=)\s+(.+)$/] *)
Definition reCount : regex :=
  Lit (js "count") ~> Plus isSpace ~> Grp reCmp ~> Plus isSpace
  ~> Grp (Plus isDot).

(** [/^contains\s+(.+)$/] *)
Definition reContains : regex :=
  Lit (js "contains") ~> Plus isSpace ~> Grp (Plus isDot).

(** [/^matches\s+'([^']* )'$/] *)
Definition reMatches : regex :=
  Lit (js "matches") ~> Plus isSpace ~> Lit dq ~> Grp (Star notQuote) ~> Lit dq.

(** [/^(==|>=)\s+(.+)$/] *)
Definition reOp : regex := Grp reCmp ~> Plus isSpace ~> Grp (Plus isDot).

(** The statement for a line of the jsonpath shape, from its path and the
    trimmed rest: the body of [assertToJs] after its first test. *)
Definition predicateToJs (assertLine jp rest : str) : str :=
  let jsPath := jsonpathToJs jp in
  let tryCount :=
    match matchAll reCount rest with
    | Some countMatch =>
        let op := group countMatch 1 in
        let transformed := transformValue (trim (group countMatch 2)) in
        if str_eqb op (js "==")
        then Some (js "expect(" ++ jsPath ++ js ".length).to.eql("
                   ++ expr transformed ++ js ");")
        else if str_eqb op (js ">=")
        then Some (js "expect(" ++ jsPath ++ js ".length).to.be.at.least("
                   ++ expr transformed ++ js ");")
        else None
    | None => None
    end in
  match tryCount with
  | Some statement => statement
  | None =>
  if str_eqb rest (js "not exists") then
    let pc := jsonpathToPropertyCheck jp in
    js "expect(" ++ parent pc ++ js ").to.not.have.property('" ++ prop pc
    ++ js "');"
  else if str_eqb rest (js "not isEmpty") then
    js "expect(" ++ jsPath ++ js ").to.not.eql(" ++ dq ++ dq ++ js ");"
  else if str_eqb rest (js "isString") then
    js "expect(typeof " ++ jsPath ++ js ").to.eql('string');"
  else if str_eqb rest (js "isInteger") then
    js "expect(Number.isInteger(" ++ jsPath ++ js ")).to.eql(true);"
  else if str_eqb rest (js "isCollection") then
    js "expect(Array.isArray(" ++ jsPath ++ js ")).to.eql(true);"
  else
    match matchAll reContains rest with
    | Some containsMatch =>
        let val := transformValue (trim (group containsMatch 1)) in
        js "expect(" ++ jsPath ++ js ").to.include(" ++ expr val ++ js ");"
    | None =>
    match matchAll reMatches rest with
    | Some matchesMatch =>
        js "expect(" ++ jsPath ++ js ").to.match(/" ++ group matchesMatch 1
        ++ js "/);"
    | None =>
    let unhandled := js "// UNHANDLED ASSERT: " ++ assertLine in
    match matchAll reOp rest with
    | Some opMatch =>
        let op := group opMatch 1 in
        let val := transformValue (trim (group opMatch 2)) in
        if str_eqb op (js "==") then
          if isNull val then js "expect(" ++ jsPath ++ js ").to.be.null;"
          else js "expect(" ++ jsPath ++ js ").to.eql(" ++ expr val ++ js ");"
        else if str_eqb op (js ">=") then
          js "expect(" ++ jsPath ++ js ").to.be.at.least(" ++ expr val
          ++ js ");"
        else unhandled
    | None => unhandled
    end
    end
    end
  end.

(** [assertToJs]: [None] is the [null] it returns for a line that is not of
    the jsonpath shape. *)
Definition assertToJs (assertLine : str) : option str :=
  match matchAll reJsonpath assertLine with
  | None => None
  | Some jpMatch =>
      Some (predicateToJs assertLine (group jpMatch 1) (trim (group jpMatch 2)))
  end.

(** ** Serialisation: [generateBruFile] *)

Definition captureToJs (c : Capture) : str :=
  js "bru.setVar('" ++ cname c ++ js "', res.body." ++ stripDollar (jsonpath c)
  ++ js ");".

(** One turn of the assertion loop:
    [const js = assertToJs(assertLine); if (js) scriptLines.push(js)]. *)
Definition pushIfTruthy (assertLine : str) : list str :=
  let js_ := assertToJs assertLine in
  if truthy js_ then [default [] js_] else [].

Definition assertStatements (request : Request) : list str :=
  flat_map pushIfTruthy (asserts request).

Definition scriptLines (request : Request) : list str :=
  map captureToJs (captures request) ++ assertStatements request.

Definition indent (l : str) : str := js "  " ++ l.

Definition generateBruFile (request : Request) (seq : N) : outcome str :=
  (* Meta *)
  name ← (if truthy (comment request) then Ok (default [] (comment request))
          else u ← deref (url request);
               Ok (show (method request) ++ js " " ++ lastSegment u));
  let meta :=
    js "meta {" ++ nl ++ js "  name: " ++ name ++ nl ++ js "  type: http" ++ nl
    ++ js "  seq: " ++ numberToString seq ++ nl ++ js "}" in
  (* Request *)
  let hasBody := match body request with Some _ => true | None => false end in
  let bodyType := if hasBody then js "json" else js "none" in
  m ← deref (method request);
  let req :=
    toLowerCase m ++ js " {" ++ nl ++ js "  url: " ++ show (url request) ++ nl
    ++ js "  body: " ++ bodyType ++ nl ++ js "  auth: none" ++ nl ++ js "}" in
  (* Headers *)
  let headerSection :=
    match headers request with
    | [] => []
    | headerEntries =>
        [js "headers {" ++ nl
         ++ join nl (map (fun kv => js "  " ++ kv.1 ++ js ": " ++ kv.2) headerEntries)
         ++ nl ++ js "}"]
    end in
  (* Body *)
  let bodySection :=
    match body request with
    | Some b =>
        let indentedBody :=
          join nl (map (fun l => match trim l with [] => l | _ => indent l end)
                       (split 10 b)) in
        [js "body:json {" ++ nl ++ indentedBody ++ nl ++ js "}"]
    | None => []
    end in
  (* Assert (status code) *)
  let statusSection :=
    match statusCode request with
    | Some code =>
        [js "assert {" ++ nl ++ js "  res.status: eq " ++ numberToString code
         ++ nl ++ js "}"]
    | None => []
    end in
  (* Script: post-response *)
  let scriptSection :=
    match scriptLines request with
    | [] => []
    | lines =>
        [js "script:post-response {" ++ nl ++ join nl (map indent lines) ++ nl
         ++ js "}"]
    end in
  Ok (join (nl ++ nl)
        ([meta; req] ++ headerSection ++ bodySection ++ statusSection
         ++ scriptSection)
      ++ nl).

(** ** The file system

    A tree: a regular file with its text, or a directory with its entries by
    name.  A path is the list of names from the root.  The names of
    directory entries hold no slash. *)

Inductive node :=
| File (content : str)
| Dir (entries : gmap str node).

Abbreviation path := (list str).

Fixpoint lookupPath (p : path) (n : node) : option node :=
  match p with
  | [] => Some n
  | x :: p' =>
      match n with
      | Dir es => match es !! x with Some c => lookupPath p' c | None => None end
      | File _ => None
      end
  end.

(** [mkdirSync(p, { recursive: true })]: makes the directories of [p] that
    are missing; [None] when a regular file is in the way. *)
Fixpoint mkdirp (p : path) (n : node) : option node :=
  match p with
  | [] => match n with Dir _ => Some n | File _ => None end
  | x :: p' =>
      match n with
      | Dir es =>
          match mkdirp p' (default (Dir ∅) (es !! x)) with
          | Some c => Some (Dir (<[x := c]> es))
          | None => None
          end
      | File _ => None
      end
  end.

(** [writeFileSync(p, text)]: [None] when the parent is not a directory or
    [p] itself is one. *)
Fixpoint writeAt (p : path) (text : str) (n : node) : option node :=
  match p with
  | [] => None
  | [x] =>
      match n with
      | Dir es =>
          match es !! x with
          | Some (Dir _) => None
          | _ => Some (Dir (<[x := File text]> es))
          end
      | File _ => None
      end
  | x :: p' =>
      match n with
      | Dir es =>
          match es !! x with
          | Some c =>
              match writeAt p' text c with
              | Some c' => Some (Dir (<[x := c']> es))
              | None => None
              end
          | None => None
          end
      | File _ => None
      end
  end.

(** [rmSync(p, { recursive: true, force: true })]: takes the entry [p] out
    with all below it; nothing happens when it is not there. *)
Fixpoint removeAt (p : path) (n : node) : node :=
  match p with
  | [] => n
  | [x] => match n with Dir es => Dir (delete x es) | File _ => n end
  | x :: p' =>
      match n with
      | Dir es =>
          match es !! x with
          | Some c => Dir (<[x := removeAt p' c]> es)
          | None => n
          end
      | File _ => n
      end
  end.

(** [join(dir, name)] of [node:path] for a name without a slash. *)
Definition joinPath (dir : path) (name : str) : path :=
  if str_eqb name [] || str_eqb name (js ".") then dir
  else if str_eqb name (js "..") then removelast dir
  else dir ++ [name].

(** A computation on the file system. *)
Definition io (A : Type) : Type := node -> node * outcome A.

#[export] Instance io_ret : MRet io := fun A a fs => (fs, Ok a).
#[export] Instance io_bind : MBind io := fun A B f m fs =>
  match m fs with
  | (fs', Ok a) => f a fs'
  | (fs', Throw e) => (fs', Throw e)
  | (fs', Exit c) => (fs', Exit c)
  end.

Definition lift {A} (o : outcome A) : io A := fun fs => (fs, o).

Definition update (f : node -> option node) : io unit := fun fs =>
  match f fs with
  | Some fs' => (fs', Ok ())
  | None => (fs, Throw SystemError)
  end.

Definition mkdirSync (p : path) : io unit := update (mkdirp p).
Definition writeFileSync (p : path) (text : str) : io unit := update (writeAt p text).
Definition rmSync (p : path) : io unit := fun fs => (removeAt p fs, Ok ()).

Definition existsSync (p : path) : io bool := fun fs =>
  (fs, Ok (match lookupPath p fs with Some _ => true | None => false end)).

Definition readFileSync (p : path) : io str := fun fs =>
  match lookupPath p fs with
  | Some (File text) => (fs, Ok text)
  | _ => (fs, Throw SystemError)
  end.

(** [readdirSync(p)]: the names, in the order the directory gives them. *)
Definition readdirSync (p : path) : io (list str) := fun fs =>
  match lookupPath p fs with
  | Some (Dir es) => (fs, Ok (map fst (map_to_list es)))
  | _ => (fs, Throw SystemError)
  end.

(** [try { body } finally { cleanup }].  A [process.exit] in [body] ends the
    process there: [cleanup] does not run. *)
Definition tryFinally {A} (body : io A) (cleanup : io unit) : io A := fun fs =>
  match body fs with
  | (fs1, Exit c) => (fs1, Exit c)
  | (fs1, r) =>
      match cleanup fs1 with
      | (fs2, Ok _) => (fs2, r)
      | (fs2, Throw e) => (fs2, Throw e)
      | (fs2, Exit c) => (fs2, Exit c)
      end
  end.

(** [if (b) { m }]. *)
Definition when (b : bool) (m : io unit) : io unit :=
  if b then m else mret ().

Fixpoint forEach {A} (l : list A) (f : A -> io unit) : io unit :=
  match l with
  | [] => mret ()
  | a :: l' => f a ;; forEach l' f
  end.

(** ** The collection: [generateCollection], [collectFiles], [checkMode] *)

Definition brunoJson : str :=
  js "{" ++ nl ++ js "  'version': '1'," ++ nl ++ js "  'name': 'RealWorld API',"
  ++ nl ++ js "  'type': 'collection'" ++ nl ++ js "}" ++ nl.

Definition collectionBru : str :=
  js "script:pre-request {" ++ nl ++ js "  if (!bru.getVar('uid')) {" ++ nl
  ++ js "    bru.setVar('uid', Date.now().toString() + Math.random().toString(36).substring(2, 6));"
  ++ nl ++ js "  }" ++ nl ++ js "}" ++ nl.

Definition localBru : str :=
  js "vars {" ++ nl ++ js "  host: http://localhost:3000" ++ nl ++ js "}" ++ nl.

(** The inner loop of [generateCollection]: one file for each record. *)
Fixpoint writeRequests (folderPath : path) (requests : list Request) (i : N)
  : io unit :=
  match requests with
  | [] => mret ()
  | req :: rest =>
      bruFileName ← lift (fileName req i (method req) (url req));
      bruContent ← lift (generateBruFile req (i + 1));
      writeFileSync (joinPath folderPath bruFileName) bruContent;;
      writeRequests folderPath rest (i + 1)
  end.

(** A plain object as [collectFiles] fills it and [checkMode] reads it.  Its
    own keys are a finite map; the keys of [Object.prototype] are visible to
    [in] as well, and an assignment to [__proto__] of a string is dropped. *)
Definition protoKeys : list str :=
  [js "constructor"; js "__proto__"; js "hasOwnProperty"; js "isPrototypeOf";
   js "propertyIsEnumerable"; js "toLocaleString"; js "toString"; js "valueOf";
   js "__defineGetter__"; js "__defineSetter__"; js "__lookupGetter__";
   js "__lookupSetter__"].

Definition setKey (o : gmap str str) (key value : str) : gmap str str :=
  if str_eqb key (js "__proto__") then o else <[key := value]> o.

(** [Object.assign(target, source)]. *)
Definition assign (target source : gmap str str) : gmap str str :=
  source ∪ target.

(** [key in o]. *)
Definition hasKey (o : gmap str str) (key : str) : bool :=
  bool_decide (is_Some (o !! key)) || bool_decide (key ∈ protoKeys).

(** The walk of [collectFiles] below a directory that exists. *)
Fixpoint collect (dir : node) (prefix : str) : gmap str str :=
  match dir with
  | File _ => ∅
  | Dir entries =>
      map_fold
        (fun name entry result =>
           let relPath :=
             match prefix with
             | [] => name
             | _ => prefix ++ js "/" ++ name
             end in
           match entry with
           | Dir _ => assign result (collect entry relPath)
           | File text => setKey result relPath text
           end)
        ∅ entries
  end.

Definition collectFiles (dir : path) (prefix : str) : io (gmap str str) :=
  fun fs =>
    match lookupPath dir fs with
    | None => (fs, Ok ∅)
    | Some (File _) => (fs, Throw SystemError)
    | Some (Dir entries) => (fs, Ok (collect (Dir entries) prefix))
    end.

(** The report line of [checkMode] for one key, if any. *)
Definition diffLine (expected actual : gmap str str) (key : str) : list str :=
  if negb (hasKey actual key) then [js "  missing: " ++ key]
  else if negb (hasKey expected key) then [js "  extra:   " ++ key]
  else if negb (bool_decide (expected !! key = actual !! key))
  then [js "  changed: " ++ key]
  else [].

Section Converter.

(** [ROOT] is the directory of the script, [tmp] is [tmpdir()] and [now] is
    [Date.now()] at the call of [checkMode]. *)
Variable ROOT : path.
Variable tmp : path.
Variable now : N.

Definition HURL_DIR : path := joinPath ROOT (js "hurl").
Definition BRUNO_DIR : path := joinPath ROOT (js "bruno").

(** [parseHurlFile(filePath)] with its read. *)
Definition parseHurlFileAt (filePath : path) : io (list Request) :=
  text ← readFileSync filePath;
  lift (parseHurlFile text).

Definition generateCollection (outputDir : path) : io unit :=
  mkdirSync outputDir;;
  writeFileSync (joinPath outputDir (js "bruno.json")) brunoJson;;
  writeFileSync (joinPath outputDir (js "collection.bru")) collectionBru;;
  let envDir := joinPath outputDir (js "environments") in
  mkdirSync envDir;;
  writeFileSync (joinPath envDir (js "local.bru")) localBru;;
  entries ← readdirSync HURL_DIR;
  let hurlFiles := sort (List.filter (fun f => endsWith f (js ".hurl")) entries) in
  forEach hurlFiles (fun hurlFile =>
    let filePath := joinPath HURL_DIR hurlFile in
    requests ← parseHurlFileAt filePath;
    let folder := folderName hurlFile in
    let folderPath := joinPath outputDir folder in
    mkdirSync folderPath;;
    writeRequests folderPath requests 0).

Definition tempDir : path :=
  joinPath tmp (js "bruno-check-" ++ numberToString now).

Definition checkMode : io unit :=
  tryFinally
    (generateCollection tempDir;;
     expected ← collectFiles tempDir [];
     actual ← collectFiles BRUNO_DIR [];
     let allKeys := elements (dom expected ∪ dom actual) in
     let diffs := flat_map (diffLine expected actual) (sort allKeys) in
     match diffs with
     | _ :: _ => lift (Exit 1)
     | [] => mret ()
     end)
    (rmSync tempDir).

(** The script itself, from the flag [--check]. *)
Definition main (CHECK_MODE : bool) : io unit :=
  if CHECK_MODE then checkMode
  else
    present ← existsSync BRUNO_DIR;
    when present (rmSync BRUNO_DIR);;
    generateCollection BRUNO_DIR;;
    files ← collectFiles BRUNO_DIR [];
    mret ().

End Converter.

(** ** Shapes the theorems speak of *)

(** The shapes [transformValue] tells apart. *)
Definition recognizedShape (rawValue : str) : bool :=
  str_eqb rawValue (js "null") || str_eqb rawValue (js "true")
  || str_eqb rawValue (js "false") || test reInt rawValue
  || test reDec rawValue || test reVar rawValue
  || (startsWith rawValue dq && endsWith rawValue dq).

(** A line [assertToJs] takes up: [jsonpath], a quoted path, a predicate. *)
Definition isJsonpathLine (assertLine : str) : bool := test reJsonpath assertLine.

(** The predicates [assertToJs] translates. *)
Definition recognizedPredicate (rest : str) : bool :=
  test reCount rest || str_eqb rest (js "not exists")
  || str_eqb rest (js "not isEmpty") || str_eqb rest (js "isString")
  || str_eqb rest (js "isInteger") || str_eqb rest (js "isCollection")
  || test reContains rest || test reMatches rest || test reOp rest.

Definition unhandled (assertLine : str) : str :=
  js "// UNHANDLED ASSERT: " ++ assertLine.

(** A file whose only assertion is on the status, not on a jsonpath. *)
Definition statusAssertFile : str :=
  js "GET {{host}}/api/tags" ++ nl ++ js "HTTP 200" ++ nl ++ js "[Asserts]" ++ nl
  ++ js "status == 200".

Definition verbs : list str :=
  [js "GET"; js "POST"; js "PUT"; js "DELETE"; js "PATCH"].

(** Two records for the same request: the same tag, verb and address. *)
Definition sameId (a b : Request) : Prop :=
  comment a = comment b /\ method a = method b /\ url a = url b.

(** The method branch of [step] is taken: the line matches the method
    pattern and the parser is not inside a body. *)
Definition isMethodLine (p : Parser) (line : str) : bool :=
  negb (isBODY (state p)) && test reMethod (trim line).

(** No line of a run is taken as a method line. *)
Fixpoint noMethodLine (p : Parser) (lines : list str) : bool :=
  match lines with
  | [] => true
  | line :: rest =>
      negb (isMethodLine p line)
      && match step p line with
         | Ok p' => noMethodLine p' rest
         | _ => true
         end
  end.





(** The parser after the method line of a request, and the inner lines of a
    nested body. *)
Definition afterMethodLine : Parser :=
  setState
    (setCurrent initial
       (Some (setMethodUrl (newRequest None) (js "POST") (js "{{host}}/api/articles"))))
    HEADERS.


(** A name the generator gives a request file ends in the [u] of [.bru]. *)
Definition bruName (f : str) : Prop := last f = Some 117.

(** The calls [generateCollection] makes when its output directory is the
    entry [d] of the directory [T] and the source directory is [H]: it makes
    [T] or directories from [T/d] down, writes files below [T/d] or request
    files in [T] itself (the folder [..]), and reads [H] and its files. *)
Inductive Writes (T : path) (d : str) (H : path) : forall {A : Type}, io A -> Prop :=
| W_ret {A} (a : A) : Writes T d H (mret a)
| W_lift {A} (o : outcome A) : Writes T d H (lift o)
| W_bind {A B} (m : io A) (k : A -> io B) :
    Writes T d H m ->
    (forall a s s1, m s = (s1, Ok a) -> Writes T d H (k a)) ->
    Writes T d H (m ≫= k)
| W_mkdir_parent : Writes T d H (mkdirSync T)
| W_mkdir (r : path) : Writes T d H (mkdirSync (T ++ d :: r))
| W_write (r : path) (text : str) :
    r <> [] -> Writes T d H (writeFileSync (T ++ d :: r) text)
| W_write_request (f text : str) :
    bruName f -> Writes T d H (writeFileSync (T ++ [f]) text)
| W_readdir : Writes T d H (readdirSync H)
| W_readFile (x : str) : Writes T d H (readFileSync (H ++ [x])).

(** A repository with one source file and a committed collection that is
    out of date, a scratch area, and a clock. *)
Definition exampleRoot : path := [js "repo"; js "api"].
Definition exampleTmp : path := [js "tmp"].
Definition exampleNow : N := 1700000000000.

Definition exampleSource : str :=
  js "# Tags" ++ nl ++ js "GET {{host}}/api/tags" ++ nl ++ js "HTTP 200" ++ nl
  ++ js "[Asserts]" ++ nl ++ js "jsonpath '$.tags' isCollection" ++ nl.

Definition exampleFs : node :=
  Dir {[ js "repo" :=
           Dir {[ js "api" :=
                    Dir {[ js "hurl" := Dir {[ js "tags.hurl" := File exampleSource ]};
                           js "bruno" := Dir {[ js "bruno.json" := File (js "{}") ]} ]} ]};
         js "tmp" := Dir ∅ ]}.

Definition isFileEntry (o : option node) : Prop := exists text, o = Some (File text).

(** The entries of [T] in a first run and in the run after it: the same
    output directory [d], the same source directory [h], and at the name of
    a request file either the same entry or a regular file. *)
Definition related (d h : str) (es es' : gmap str node) : Prop :=
  es !! d = es' !! d /\ es !! h = es' !! h
  /\ forall f, bruName f -> es' !! f = es !! f \/ isFileEntry (es' !! f).

Definition Rel (T : path) (d h : str) (s s' : node) : Prop :=
  exists es es',
    lookupPath T s = Some (Dir es) /\ lookupPath T s' = Some (Dir es')
    /\ related d h es es'.

(** ** Shapes the further properties speak of *)

(** A record as the generator needs it: one of the five verbs and an
    address. *)
Definition wellFormed (r : Request) : Prop :=
  exists verb address,
    method r = Some verb /\ verb ∈ verbs /\ url r = Some address.

(** A line that reaches the assertion branch of [step] in the [ASSERTS]
    state: not blank, no comment, no method line, no status line, no section
    header. *)
Definition isAssertLine (line : str) : bool :=
  let trimmed := trim line in
  negb (str_eqb trimmed []) && negb (startsWith trimmed (js "#"))
  && negb (test reMethod trimmed) && negb (test reStatus trimmed)
  && negb (str_eqb trimmed (js "[Asserts]"))
  && negb (str_eqb trimmed (js "[Captures]")).

(** The invariant behind well-formed records: the finished records are well
    formed, and so is the open one as soon as it has a method. *)
Definition parserInv (p : Parser) : Prop :=
  Forall wellFormed (requests p)
  /\ forall cur, current p = Some cur -> method cur = None \/ wellFormed cur.

Definition exampleRequest : Request :=
  setStatusCode
    (setMethodUrl (newRequest (Some (js "Tags"))) (js "GET") (js "{{host}}/api/tags"))
    200.

(** A string of lower-case letters, digits and single dashes; [afterDash]
    says that a dash comes right before it. *)
Fixpoint wellDashed (afterDash : bool) (s : str) : bool :=
  match s with
  | [] => true
  | c :: s' =>
      if c =? 45 then negb afterDash && wellDashed true s'
      else (isLower c || isDigit c) && wellDashed false s'
  end.

(** What [slugify] returns: lower-case letters, digits and dashes only, no
    dash at either end and no two dashes in a row. *)
Definition cleanSlug (s : str) : Prop :=
  wellDashed true s = true /\ last s <> Some 45.

Fixpoint digitsOf (d : Decimal.uint) : str :=
  match d with
  | Decimal.Nil => []
  | Decimal.D0 d => 48 :: digitsOf d
  | Decimal.D1 d => 49 :: digitsOf d
  | Decimal.D2 d => 50 :: digitsOf d
  | Decimal.D3 d => 51 :: digitsOf d
  | Decimal.D4 d => 52 :: digitsOf d
  | Decimal.D5 d => 53 :: digitsOf d
  | Decimal.D6 d => 54 :: digitsOf d
  | Decimal.D7 d => 55 :: digitsOf d
  | Decimal.D8 d => 56 :: digitsOf d
  | Decimal.D9 d => 57 :: digitsOf d
  end.

(** The lines of the body block as [generateBruFile] writes them. *)
Definition bodyBlockLines (b : str) : list str :=
  map (fun l => match trim l with [] => l | _ => indent l end) (split 10 b).

(** Two runs of [generateCollection], one into the entry [d] of [T] and one
    into the entry [d'] of [T'], call for call: each makes the same
    directories and writes the same files below its own output directory,
    and both read the source directory [H], which holds [hurl]. *)
Inductive Sim (T T' : path) (d d' : str) (H : path) (hurl : gmap str node)
  : forall {A : Type}, io A -> io A -> Prop :=
| S_ret {A} (a : A) : Sim T T' d d' H hurl (mret a) (mret a)
| S_lift {A} (o : outcome A) : Sim T T' d d' H hurl (lift o) (lift o)
| S_bind {A B} (m m' : io A) (k k' : A -> io B) :
    Sim T T' d d' H hurl m m' ->
    (forall a s s1,
       lookupPath H s = Some (Dir hurl) -> m s = (s1, Ok a) ->
       Sim T T' d d' H hurl (k a) (k' a)) ->
    Sim T T' d d' H hurl (m ≫= k) (m' ≫= k')
| S_mkdir (r : path) :
    Sim T T' d d' H hurl (mkdirSync (T ++ d :: r)) (mkdirSync (T' ++ d' :: r))
| S_write (r : path) (text : str) :
    r <> [] ->
    Sim T T' d d' H hurl
      (writeFileSync (T ++ d :: r) text) (writeFileSync (T' ++ d' :: r) text)
| S_readdir : Sim T T' d d' H hurl (readdirSync H) (readdirSync H)
| S_readFile (x : str) :
    Sim T T' d d' H hurl (readFileSync (H ++ [x])) (readFileSync (H ++ [x])).

(** The states of two such runs at the same point: the two output
    directories hold the same, and both states hold the source directory
    with the entries [hurl]. *)
Definition twin (T T' : path) (d d' : str) (H : path) (hurl : gmap str node)
    (s s' : node) : Prop :=
  (exists es es',
     lookupPath T s = Some (Dir es) /\ lookupPath T' s' = Some (Dir es')
     /\ es !! d = es' !! d')
  /\ lookupPath H s = Some (Dir hurl) /\ lookupPath H s' = Some (Dir hurl).

(** A computation that never writes to the path [q]: it may make
    directories, write elsewhere, and read. *)
Inductive Spares (q : path) : forall {A : Type}, io A -> Prop :=
| Sp_ret {A} (a : A) : Spares q (mret a)
| Sp_lift {A} (o : outcome A) : Spares q (lift o)
| Sp_bind {A B} (m : io A) (k : A -> io B) :
    Spares q m ->
    (forall a s s1, m s = (s1, Ok a) -> Spares q (k a)) ->
    Spares q (m ≫= k)
| Sp_mkdir (p : path) : Spares q (mkdirSync p)
| Sp_write (p : path) (text : str) : p <> q -> Spares q (writeFileSync p text)
| Sp_readdir (p : path) : Spares q (readdirSync p)
| Sp_readFile (p : path) : Spares q (readFileSync p).

(** The loop of [generateCollection] over the source files. *)
Definition requestLoop (ROOT outputDir : path) (entries : list str) : io unit :=
  forEach (sort (List.filter (fun f => endsWith f (js ".hurl")) entries))
    (fun hurlFile =>
       requests ← parseHurlFileAt (joinPath (HURL_DIR ROOT) hurlFile);
       mkdirSync (joinPath outputDir (folderName hurlFile));;
       writeRequests (joinPath outputDir (folderName hurlFile)) requests 0).

(** ** Proof tactics *)

(** Every test [step] makes on the line becomes a variable, so that a proof
    goes by the cases of the loop body and never inside a pattern. *)
Ltac abstract_tests line :=
  unfold step, isMethodLine, test in *; cbv zeta;
  set (mMethod := matchAll reMethod (trim line)) in *; clearbody mMethod;
  set (mHeader := matchAll reHeader (trim line)) in *; clearbody mHeader;
  set (mStatus := matchAll reStatus (trim line)) in *; clearbody mStatus;
  set (mCapture := matchAll reCapture (trim line)) in *; clearbody mCapture;
  set (blank := str_eqb (trim line) []) in *; clearbody blank;
  set (hash := startsWith (trim line) (js "#")) in *; clearbody hash;
  set (brace := str_eqb (trim line) (js "{")) in *; clearbody brace;
  set (secA := str_eqb (trim line) (js "[Asserts]")) in *; clearbody secA;
  set (secC := str_eqb (trim line) (js "[Captures]")) in *; clearbody secC;
  set (depth := countBraces _ (trim line)) in *; clearbody depth.

Ltac split_tests :=
  repeat match goal with
         | |- context [match ?x with _ => _ end] =>
             lazymatch x with
             | context [match _ with _ => _ end] => fail
             | _ => destruct x eqn:?
             end
         end.

#[local] Hint Extern 1 (sameId _ _) => (repeat split; reflexivity) : core.

(** * Properties *)

(** ** Strings *)


Lemma str_eqb_neq (a b : str) : str_eqb a b = false <-> a <> b.
Proof. unfold str_eqb. apply bool_decide_eq_false. Qed.

Lemma startsWith_app (s pre : str) :
  startsWith s pre = true <-> exists rest, s = pre ++ rest.
Proof.
  revert s. induction pre as [|a pre IH]; intros s; simpl.
  - split; [intros _; by exists s | intros _; by destruct s].
  - destruct s as [|b s].
    + split; [intros H; discriminate H | intros [rest Hrest]; discriminate Hrest].
    + simpl. rewrite andb_true_iff, N.eqb_eq, IH. split.
      * intros [-> [rest ->]]. by exists rest.
      * intros [rest Hrest]. injection Hrest as -> ->. eauto.
Qed.

(** ** The parser raises when a status, capture or assertion line comes
    before any record is open *)

(** C1, evaluated on the code: an [HTTP 200] line at the top of a file makes
    [parseHurlFile] throw a [TypeError], and so does an assertion line under
    [[Asserts]] at the top of a file; the parser is not total. *)
Theorem parseHurlFile_throws_without_open_record :
  parseHurlFile (js "HTTP 200") = Throw TypeError /\
  parseHurlFile (js "[Asserts]" ++ nl ++ js "jsonpath '$.a' == 1")
  = Throw TypeError.
Proof. split; vm_compute; reflexivity. Qed.

(** ** Value translation *)

Lemma indexOfAt_lower (s needle : str) (i : Z) :
  (-1 <= i)%Z -> (-1 <= indexOfAt s needle i)%Z.
Proof.
  revert i. induction s as [|c s IH]; intros i Hi; cbn [indexOfAt].
  - destruct (startsWith [] needle); lia.
  - destruct (startsWith (c :: s) needle); [lia | apply IH; lia].
Qed.

Lemma indexOf_lower (s needle : str) (from : Z) :
  (-1 <= indexOf s needle from)%Z.
Proof. unfold indexOf. apply indexOfAt_lower. unfold len. lia. Qed.

Lemma sliceFrom_shorter (s : str) (k : Z) :
  s <> [] -> (1 <= k)%Z -> (length (sliceFrom s k) < length s)%nat.
Proof.
  intros Hs Hk. unfold sliceFrom, slice, len.
  destruct s as [|c s]; [done |].
  rewrite length_take, length_drop.
  destruct (k <? 0)%Z eqn:Hneg; [lia |].
  destruct (Z.of_nat (length (c :: s)) <? 0)%Z eqn:Hneg'; simpl length in *; lia.
Qed.

(** The loop of [transformValue] ends: a turn leaves a shorter [remaining],
    so more fuel than its length changes nothing. *)
Lemma concatParts_steady (n m : nat) (s : str) :
  (length s <= n)%nat -> (length s <= m)%nat ->
  concatParts n s = concatParts m s.
Proof.
  revert m s. induction n as [|n IH]; intros m s Hn Hm.
  - destruct s; [| simpl in Hn; lia]. by destruct m.
  - destruct m as [|m].
    + destruct s; [done | simpl in Hm; lia].
    + simpl. destruct (0 <? len s)%Z eqn:Hlen; [| done].
      destruct (indexOf s (js "{{") 0 =? -1)%Z; [done |].
      f_equal. f_equal.
      assert (length (sliceFrom s (indexOf s (js "}}") (indexOf s (js "{{") 0) + 2))
              < length s)%nat.
      { apply sliceFrom_shorter.
        - intros ->. discriminate Hlen.
        - pose proof (indexOf_lower s (js "}}") (indexOf s (js "{{") 0)). lia. }
      apply IH; lia.
Qed.

(** C9: [transformValue] on the four inputs of the specification, with the
    object it returns written out: a quoted pure variable gives the lookup
    of that variable, a quoted mix of text and a variable gives the
    concatenation of the quoted text and the lookup, the bare [null] gives
    the null marker (the flag [isNull], not a string), and the bare [42]
    gives the numeral [42] itself, with no quotes.  Every input that is of
    no recognized shape comes back with the input itself as expression; and
    the function is total: its only loop ends within [remaining.length]
    turns, whatever fuel it is given beyond that. *)
Theorem transformValue_total_with_fallback :
  transformValue (js "'{{slug}}'")
  = {| expr := js "bru.getVar('slug')"; isNull := false; isLiteral := true |}
  /\ transformValue (js "'auth_{{uid}}'")
     = {| expr := js "'auth_' + bru.getVar('uid')"; isNull := false;
          isLiteral := true |}
  /\ transformValue (js "null")
     = {| expr := js "null"; isNull := true; isLiteral := false |}
  /\ transformValue (js "42")
     = {| expr := js "42"; isNull := false; isLiteral := true |}
  /\ (forall rawValue,
        recognizedShape rawValue = true
        \/ transformValue rawValue
           = {| expr := rawValue; isNull := false; isLiteral := true |})
  /\ (forall remaining extra,
        concatParts (length remaining + extra) remaining
        = concatParts (length remaining) remaining).
Proof.
  repeat split; try (vm_compute; reflexivity).
  - intros rawValue. unfold recognizedShape, transformValue, test, literal.
    destruct (str_eqb rawValue (js "null")); [by left |].
    destruct (str_eqb rawValue (js "true")); [by left |].
    destruct (str_eqb rawValue (js "false")); [by left |].
    destruct (matchAll reInt rawValue); [by left |].
    destruct (matchAll reDec rawValue); [by left |].
    destruct (matchAll reVar rawValue); [by left |].
    destruct (startsWith rawValue dq && endsWith rawValue dq); [by left |].
    by right.
  - intros remaining extra. apply concatParts_steady; lia.
Qed.

(** ** Assertion translation *)

(** C10: [assertToJs] on the three assertion lines of the specification: an
    equality on [res.body.user.username], a least length on [res.body.tags],
    and the absence of the property [body] on [res.body.article]. *)
Theorem assertToJs_examples :
  assertToJs (js "jsonpath '$.user.username' == 'bob'")
  = Some (js "expect(res.body.user.username).to.eql('bob');")
  /\ assertToJs (js "jsonpath '$.tags' count >= 1")
     = Some (js "expect(res.body.tags.length).to.be.at.least(1);")
  /\ assertToJs (js "jsonpath '$.article.body' not exists")
     = Some (js "expect(res.body.article).to.not.have.property('body');")
  /\ jsonpathToPropertyCheck (js "$.article.body")
     = {| parent := js "res.body.article"; prop := js "body" |}.
Proof. repeat split; vm_compute; reflexivity. Qed.

Lemma predicateToJs_nonempty (assertLine jp rest : str) :
  predicateToJs assertLine jp rest <> [].
Proof.
  unfold predicateToJs.
  repeat match goal with
         | |- context [match ?x with _ => _ end] =>
             lazymatch x with
             | context [match _ with _ => _ end] => fail
             | _ => destruct x
             end
         end; discriminate.
Qed.

Lemma predicateToJs_unhandled (assertLine jp rest : str) :
  recognizedPredicate rest = true
  \/ predicateToJs assertLine jp rest = unhandled assertLine.
Proof.
  unfold recognizedPredicate, predicateToJs, test.
  destruct (matchAll reCount rest); [by left |].
  destruct (str_eqb rest (js "not exists")); [by left |].
  destruct (str_eqb rest (js "not isEmpty")); [by left |].
  destruct (str_eqb rest (js "isString")); [by left |].
  destruct (str_eqb rest (js "isInteger")); [by left |].
  destruct (str_eqb rest (js "isCollection")); [by left |].
  destruct (matchAll reContains rest); [by left |].
  destruct (matchAll reMatches rest); [by left |].
  destruct (matchAll reOp rest); [by left |].
  by right.
Qed.

(** What becomes of one stored assertion line. *)
Lemma assertToJs_line (assertLine : str) :
  match matchAll reJsonpath assertLine with
  | None => assertToJs assertLine = None
  | Some jpMatch =>
      exists statement,
        assertToJs assertLine = Some statement /\ statement <> []
        /\ (recognizedPredicate (trim (group jpMatch 2)) = true
            \/ statement = unhandled assertLine)
  end.
Proof.
  unfold assertToJs. destruct (matchAll reJsonpath assertLine) as [jpMatch|]; [| done].
  eexists. split; [done |]. split.
  - apply predicateToJs_nonempty.
  - apply predicateToJs_unhandled.
Qed.

Lemma assertStatements_length (lines : list str) :
  length (flat_map pushIfTruthy lines)
  = length (List.filter isJsonpathLine lines).
Proof.
  induction lines as [|line lines IH]; [done |].
  cbn [flat_map List.filter]. rewrite length_app, IH.
  unfold pushIfTruthy, isJsonpathLine, test.
  pose proof (assertToJs_line line) as Hline.
  destruct (matchAll reJsonpath line) as [jpMatch|].
  - destruct Hline as (statement & -> & Hne & _).
    destruct statement; [done |]. reflexivity.
  - rewrite Hline. reflexivity.
Qed.

(** C2 as stated fails: the record parsed from [statusAssertFile] stores one
    assertion line and the generator emits no statement and no marker for
    it. *)
Lemma assertStatements_drops_status_assert :
  exists request,
    parseHurlFile statusAssertFile = Ok [request]
    /\ asserts request = [js "status == 200"]
    /\ assertStatements request = []
    /\ length (assertStatements request) <> length (asserts request).
Proof.
  eexists. split; [vm_compute; reflexivity |]. by vm_compute.
Qed.

(** C2, amended: the translator is a total function; a stored line of the
    shape [jsonpath '<path>' <predicate>] yields exactly one statement, which
    is the unhandled-assertion comment whenever the predicate is not one of
    the recognized shapes; a stored line not of that shape yields nothing.
    So for every record the emitted assertion statements and markers are as
    many as the stored lines of the jsonpath shape. *)
Theorem assertStatements_one_per_jsonpath_line (request : Request) :
  length (assertStatements request)
  = length (List.filter isJsonpathLine (asserts request))
  /\ Forall
       (fun assertLine =>
          match matchAll reJsonpath assertLine with
          | None => assertToJs assertLine = None
          | Some jpMatch =>
              exists statement,
                assertToJs assertLine = Some statement /\ statement <> []
                /\ (recognizedPredicate (trim (group jpMatch 2)) = true
                    \/ statement = unhandled assertLine)
          end)
       (asserts request).
Proof.
  split.
  - apply assertStatements_length.
  - apply Forall_forall. intros assertLine _. apply assertToJs_line.
Qed.

(** ** The matcher *)

Lemma star_continues (p : N -> bool) (s : str) (caps : list str) (k : cont)
    (res : list str) :
  star p s caps k = Some res -> exists s', k s' caps = Some res.
Proof.
  induction s as [|c s IH]; simpl; [eauto |].
  destruct (p c); [| eauto].
  destruct (star p s caps k) as [r|] eqn:Hstar; [| eauto].
  intros [= ->]. by apply IH.
Qed.

(** A successful match ends in its continuation, which sees the captures so
    far and possibly more. *)
Lemma exec_continues (r : regex) :
  forall (s : str) (caps : list str) (k : cont) (res : list str),
    exec r s caps k = Some res ->
    exists s' caps', k s' caps' = Some res /\ caps `prefix_of` caps'.
Proof.
  induction r as [l|p|r IH|p|p|r1 IH1 r2 IH2|r1 IH1 r2 IH2|r IH];
    intros s caps k res; cbn [exec].
  - destruct (startsWith s l); [eauto | done].
  - destruct s as [|c s]; [done |]. destruct (p c); [eauto | done].
  - destruct (exec r s caps k) eqn:Hr; [| eauto].
    intros [= ->]. by eapply IH.
  - intros H. apply star_continues in H as [s' H]. eauto.
  - destruct s as [|c s]; [done |]. destruct (p c); [| done].
    intros H. apply star_continues in H as [s' H]. eauto.
  - destruct (exec r1 s caps k) eqn:H1.
    + intros [= ->]. by eapply IH1.
    + apply IH2.
  - intros H. apply IH1 in H as (s1 & caps1 & H & Hpre1).
    apply IH2 in H as (s2 & caps2 & H & Hpre2).
    exists s2, caps2. split; [done | by etrans].
  - intros H. apply IH in H as (s' & caps' & H & Hpre).
    eexists _, _. split; [exact H |]. by apply prefix_app_r.
Qed.

Lemma exec_alt (r1 r2 : regex) (s : str) (caps : list str) (k : cont)
    (res : list str) :
  exec (Alt r1 r2) s caps k = Some res ->
  exec r1 s caps k = Some res \/ exec r2 s caps k = Some res.
Proof. cbn [exec]. destruct (exec r1 s caps k); [by left | by right]. Qed.

Lemma exec_lit (l s : str) (caps : list str) (k : cont) (res : list str) :
  exec (Lit l) s caps k = Some res ->
  startsWith s l = true /\ k (drop (length l) s) caps = Some res.
Proof. cbn [exec]. by destruct (startsWith s l). Qed.

(** A line that matches the method pattern starts with one of the five
    verbs, and the first group is that verb. *)
Lemma reMethod_verb (trimmed : str) (methodMatch : list str) :
  matchAll reMethod trimmed = Some methodMatch ->
  exists verb rest,
    trimmed = verb ++ rest /\ verb ∈ verbs /\ group methodMatch 1 = verb.
Proof.
  unfold matchAll, reMethod.
  change (exec (Grp reVerb ~> ?rest) trimmed [] ?kf)
    with (exec reVerb trimmed []
            (fun s' caps' =>
               exec rest s' (caps' ++ [take (length trimmed - length s') trimmed]) kf)).
  set (k := fun (s' : str) (caps' : list str) => _ : option (list str)).
  assert (Hverb : forall verb,
             verb ∈ verbs -> startsWith trimmed verb = true ->
             k (drop (length verb) trimmed) [] = Some methodMatch ->
             exists verb rest,
               trimmed = verb ++ rest /\ verb ∈ verbs /\ group methodMatch 1 = verb).
  { intros verb Hin Hstart Hk. exists verb.
    apply startsWith_app in Hstart as [rest ->]. exists rest.
    split; [done |]. split; [done |].
    unfold k in Hk. apply exec_continues in Hk as (s' & caps' & Hk & Hpre).
    destruct s'; [| done]. injection Hk as ->.
    destruct Hpre as [more ->].
    rewrite drop_app_length, length_app, Nat.add_sub, take_app_length.
    reflexivity. }
  unfold reVerb. intros H.
  repeat (apply exec_alt in H as [H | H]).
  all: apply exec_lit in H as [Hstart Hk].
  all: eapply Hverb; [| exact Hstart | exact Hk]; unfold verbs.
  all: repeat first [apply list_elem_of_here | apply list_elem_of_further].
Qed.

Lemma reMethod_not_blank_nor_comment (trimmed : str) (methodMatch : list str) :
  matchAll reMethod trimmed = Some methodMatch ->
  str_eqb trimmed [] = false /\ startsWith trimmed (js "#") = false
  /\ truthy (Some (group methodMatch 1)) = true.
Proof.
  intros H. apply reMethod_verb in H as (verb & rest & -> & Hin & ->).
  unfold verbs in Hin.
  repeat (apply elem_of_cons in Hin as [-> | Hin]); try by vm_compute.
  by apply elem_of_nil in Hin.
Qed.

(** ** The parser, line by line *)

Lemma sameId_refl (a : Request) : sameId a a.
Proof. done. Qed.

Lemma feed_app (p : Parser) (l1 l2 : list str) :
  feed p (l1 ++ l2) = bind (feed p l1) (fun p' => feed p' l2).
Proof.
  revert p. induction l1 as [|line l1 IH]; intros p; simpl; [done |].
  destruct (step p line); simpl; [apply IH | done | done].
Qed.

(** Finalizing an open record: it is pushed when it has a method, and
    dropped when it has none. *)
Lemma pushCurrent_open (p : Parser) (cur : Request) :
  current p = Some cur ->
  exists cur',
    sameId cur cur'
    /\ requests (pushCurrent p)
       = requests p ++ (if truthy (method cur) then [cur'] else [])
    /\ current (pushCurrent p) = None
    /\ state (pushCurrent p) = state p.
Proof.
  destruct p as [reqs c st bl d]. simpl. intros ->.
  unfold pushCurrent, finishBody. simpl.
  destruct bl; simpl.
  - exists cur. destruct (truthy (method cur)); simpl; rewrite ?app_nil_r; auto.
  - eexists (setBody cur _). simpl.
    destruct (truthy (method cur)); simpl; rewrite ?app_nil_r; auto.
Qed.

(** With a record open, [step] does not throw, keeps a record open and only
    appends to the finished records. *)
Lemma step_open (p : Parser) (line : str) (cur : Request) :
  current p = Some cur ->
  exists p' cur',
    step p line = Ok p' /\ current p' = Some cur'
    /\ requests p `prefix_of` requests p'.
Proof.
  intros Hcur. abstract_tests line.
  destruct (pushCurrent_open p cur Hcur) as (c' & _ & Hreqs & Hnone & _).
  remember (pushCurrent p) as pushed eqn:Hpushed. clear Hpushed.
  unfold onCurrent, finishBody.
  destruct p as [reqs c st bl d], pushed as [reqs' c0 st' bl' d'].
  simpl in *; subst c c0 reqs'.
  destruct st; simpl; split_tests; simpl in *; try discriminate;
    eexists _, _; (split; [reflexivity |]); simpl;
    (split; [reflexivity |]); try reflexivity; by apply prefix_app_r.
Qed.


Lemma feed_open (lines : list str) :
  forall (p : Parser) (cur : Request),
    current p = Some cur ->
    exists p' cur',
      feed p lines = Ok p' /\ current p' = Some cur'
      /\ requests p `prefix_of` requests p'.
Proof.
  induction lines as [|line lines IH]; intros p cur Hcur; simpl.
  - by exists p, cur.
  - destruct (step_open p line cur Hcur) as (p1 & c1 & -> & Hc1 & Hpre1). simpl.
    destruct (IH p1 c1 Hc1) as (p' & cur' & -> & Hcur' & Hpre).
    exists p', cur'. repeat split; [done |]. by etrans.
Qed.



(** What [step] does with a line taken as a method line. *)
Lemma step_method_line (p : Parser) (line : str) (methodMatch : list str) :
  isBODY (state p) = false ->
  matchAll reMethod (trim line) = Some methodMatch ->
  step p line
  = let verb := group methodMatch 1 in
    let address := group methodMatch 2 in
    Ok (match current p with
        | Some cur =>
            if truthy (method cur)
            then setState (setCurrent (pushCurrent p)
                             (Some (setMethodUrl (newRequest None) verb address)))
                          HEADERS
            else setState (setCurrent p (Some (setMethodUrl cur verb address)))
                          HEADERS
        | None =>
            setState (setCurrent p (Some (setMethodUrl (newRequest None) verb address)))
                     HEADERS
        end).
Proof.
  intros Hstate Hmatch.
  destruct (reMethod_not_blank_nor_comment _ _ Hmatch) as (Hblank & Hhash & _).
  unfold step. cbv zeta. rewrite Hblank, Hhash, Hstate, Hmatch. simpl.
  unfold onCurrent.
  destruct (current p) as [cur|] eqn:Hcur; simpl.
  - destruct (truthy (method cur)); simpl; [reflexivity |].
    rewrite Hcur. reflexivity.
  - reflexivity.
Qed.

(** A line taken as a method line leaves a record open that has the verb
    and the address of the line; its tag is the tag of the record that was
    open without a method, if there was one. *)
Lemma method_line_opens (p : Parser) (line : str) (methodMatch : list str) :
  isBODY (state p) = false ->
  matchAll reMethod (trim line) = Some methodMatch ->
  exists p1 r,
    step p line = Ok p1 /\ current p1 = Some r /\ state p1 = HEADERS
    /\ requests p `prefix_of` requests p1
    /\ method r = Some (group methodMatch 1)
    /\ url r = Some (group methodMatch 2)
    /\ comment r = match current p with
                   | Some cur => if truthy (method cur) then None else comment cur
                   | None => None
                   end
    /\ truthy (method r) = true.
Proof.
  intros Hstate Hmatch. rewrite (step_method_line p line methodMatch Hstate Hmatch).
  destruct (reMethod_not_blank_nor_comment _ _ Hmatch) as (_ & _ & Htruthy).
  cbv zeta. destruct (current p) as [cur|] eqn:Hcur.
  - destruct (truthy (method cur)) eqn:Hm.
    + destruct (pushCurrent_open p cur Hcur) as (c' & _ & Hreqs & _).
      eexists _, _. split; [reflexivity |]. simpl. rewrite Hreqs.
      repeat split; [by apply prefix_app_r | exact Htruthy].
    + eexists _, _. split; [reflexivity |]. simpl.
      repeat split; [done | exact Htruthy].
  - eexists _, _. split; [reflexivity |]. simpl.
    repeat split; [done | exact Htruthy].
Qed.





(** ** Records without a method *)

(** A line that is not taken as a method line leaves a record without a
    method as it is in that respect, and pushes nothing. *)
Lemma step_discards (p : Parser) (line : str) (cur : Request) :
  current p = Some cur -> method cur = None ->
  isMethodLine p line = false ->
  exists p' cur',
    step p line = Ok p' /\ requests p' = requests p
    /\ current p' = Some cur' /\ method cur' = None.
Proof.
  intros Hcur Hmethod Hline. abstract_tests line.
  destruct (pushCurrent_open p cur Hcur) as (c' & _ & Hreqs & Hnone & _).
  rewrite Hmethod in Hreqs. simpl in Hreqs. rewrite app_nil_r in Hreqs.
  remember (pushCurrent p) as pushed eqn:Hpushed. clear Hpushed.
  unfold onCurrent, finishBody.
  destruct p as [reqs c st bl d], pushed as [reqs' c0 st' bl' d'].
  simpl in *; subst c c0 reqs'.
  destruct st; simpl in *; split_tests; simpl in *; try discriminate;
    eexists _, _; (split; [reflexivity |]); simpl;
    (split; [reflexivity |]); (split; [reflexivity |]); simpl; done.
Qed.

Lemma feed_discards (lines : list str) :
  forall (p : Parser) (cur : Request),
    current p = Some cur -> method cur = None ->
    noMethodLine p lines = true ->
    exists p' cur',
      feed p lines = Ok p' /\ requests p' = requests p
      /\ current p' = Some cur' /\ method cur' = None.
Proof.
  induction lines as [|line lines IH]; intros p cur Hcur Hmethod Hno; simpl.
  - by exists p, cur.
  - simpl in Hno. apply andb_true_iff in Hno as [Hline Hrest].
    apply negb_true_iff in Hline.
    destruct (step_discards p line cur Hcur Hmethod Hline)
      as (p1 & c1 & Hstep & Hreqs & Hc1 & Hm1).
    rewrite Hstep in Hrest |- *. simpl.
    destruct (IH p1 c1 Hc1 Hm1 Hrest) as (p' & cur' & -> & Hreqs' & Hcur' & Hm').
    exists p', cur'. repeat split; [congruence | done | done].
Qed.

(** A block that opens with a comment line and in which no line is taken
    as a method line (it may hold headers, a body, a status line, sections,
    further comments) is parsed without an exception, and once it is
    finalized the finished records are those that were there before it: the
    block yields no record, so the generator, which writes one file for each
    record, writes none for it. *)
Theorem record_without_method_is_discarded (p : Parser) (commentLine : str)
    (block : list str) :
  isBODY (state p) = false ->
  startsWith (trim commentLine) (js "#") = true ->
  noMethodLine p (commentLine :: block) = true ->
  exists p',
    feed p (commentLine :: block) = Ok p'
    /\ requests (pushCurrent p') = requests (pushCurrent p).
Proof.
  intros Hstate Hhash Hno.
  assert (Hstep : step p commentLine
                  = Ok (setState
                          (setCurrent (pushCurrent p)
                             (Some (newRequest (Some (stripHash (trim commentLine))))))
                          IDLE)).
  { unfold step. cbv zeta. rewrite Hhash, Hstate.
    destruct (trim commentLine); [discriminate Hhash | reflexivity]. }
  simpl in Hno. rewrite Hstep in Hno. apply andb_true_iff in Hno as [_ Hno].
  set (opened := newRequest (Some (stripHash (trim commentLine)))) in *.
  set (p1 := setState (setCurrent (pushCurrent p) (Some opened)) IDLE) in *.
  destruct (feed_discards block p1 opened eq_refl eq_refl Hno)
    as (p' & cur' & Hfeed & Hreqs & Hcur' & Hm').
  exists p'. simpl. rewrite Hstep. simpl. rewrite Hfeed.
  destruct (pushCurrent_open p' cur' Hcur') as (c' & _ & Hfinal & _).
  rewrite Hm' in Hfinal. simpl in Hfinal. rewrite app_nil_r in Hfinal.
  split; [reflexivity |]. by rewrite Hfinal, Hreqs.
Qed.

Lemma record_without_method_is_discarded_witness :
  exists p',
    feed initial
      [js "# Orphan"; js "Content-Type: application/json"; js "{"; js "}";
       js "HTTP 200"]
    = Ok p'
    /\ requests (pushCurrent p') = requests (pushCurrent initial).
Proof.
  apply (record_without_method_is_discarded initial (js "# Orphan")
           [js "Content-Type: application/json"; js "{"; js "}"; js "HTTP 200"]);
    vm_compute; reflexivity.
Defined.

(** C8, evaluated on the code: a block without a method line is dropped
    without a trace only when a comment line opened a record for it.  At
    the top of a file, with no record open, the same block of a header, a
    body and a status line ends the parse with a [TypeError] at the status
    line; and a body alone is parsed without an exception but is not
    dropped: it stays in [bodyLines] and becomes the body of the request
    that follows.  The block that a comment line leads is dropped as the
    claim says. *)
Theorem leading_block_without_method_is_not_discarded :
  parseHurlFile (js "Content-Type: application/json" ++ nl ++ js "{" ++ nl ++ js "}"
                 ++ nl ++ js "HTTP 200")
  = Throw TypeError
  /\ parseHurlFile (js "{" ++ nl ++ js "  'orphan': true" ++ nl ++ js "}" ++ nl ++ nl
                    ++ js "GET {{host}}/api/tags")
     = Ok [ {| comment := None; method := Some (js "GET");
               url := Some (js "{{host}}/api/tags"); headers := [];
               body := Some (js "{" ++ nl ++ js "  'orphan': true" ++ nl ++ js "}");
               statusCode := None; asserts := []; captures := [] |} ]
  /\ parseHurlFile (js "# Orphan" ++ nl ++ js "Content-Type: application/json" ++ nl
                    ++ js "{" ++ nl ++ js "}" ++ nl ++ js "HTTP 200")
     = Ok [].
Proof. repeat split; vm_compute; reflexivity. Qed.

(** ** The body state *)








(** ** The file system: what a call leaves alone *)

Lemma lookupPath_app (a b : path) (n : node) :
  lookupPath (a ++ b) n = lookupPath a n ≫= lookupPath b.
Proof.
  revert n. induction a as [|x a IH]; intros n; simpl; [done |].
  destruct n as [|es]; [done |]. destruct (es !! x); [apply IH | done].
Qed.

Lemma lookupPath_file (q : path) (text : str) :
  q <> [] -> lookupPath q (File text) = None.
Proof. by destruct q. Qed.

Lemma lookupPath_empty (q : path) : q <> [] -> lookupPath q (Dir ∅) = None.
Proof. destruct q; [done |]. intros _. simpl. by rewrite lookup_empty. Qed.

Lemma not_prefix_cons (x : str) (q p : path) :
  ~ x :: q `prefix_of` x :: p -> ~ q `prefix_of` p.
Proof. intros H Hpre. apply H. by apply prefix_cons. Qed.

Lemma not_prefix_nonempty (q p : path) : ~ q `prefix_of` p -> q <> [].
Proof. intros H ->. apply H, prefix_nil. Qed.

(** [mkdirSync] changes nothing at a path that is not on the way to the one
    it makes. *)
Lemma mkdirp_frame (p : path) :
  forall (q : path) (n n1 : node),
    mkdirp p n = Some n1 -> ~ q `prefix_of` p ->
    lookupPath q n1 = lookupPath q n.
Proof.
  induction p as [|x p IH]; intros q n n1 Hmk Hq; simpl in Hmk.
  - destruct n; by simplify_eq.
  - destruct n as [|es]; [done |].
    destruct (mkdirp p (default (Dir ∅) (es !! x))) as [c|] eqn:Hc; [| congruence].
    simplify_eq. destruct q as [|y q]; [by destruct Hq; apply prefix_nil |].
    simpl. destruct (decide (x = y)) as [<- | Hne].
    + rewrite lookup_insert_eq. apply not_prefix_cons in Hq.
      rewrite (IH q _ _ Hc Hq). destruct (es !! x); [done |].
      apply lookupPath_empty. by eapply not_prefix_nonempty.
    + by rewrite lookup_insert_ne.
Qed.

Lemma writeAt_deeper (x x2 : str) (p : path) (text : str) (es : gmap str node) :
  writeAt (x :: x2 :: p) text (Dir es)
  = match es !! x with
    | Some c =>
        match writeAt (x2 :: p) text c with
        | Some c' => Some (Dir (<[x := c']> es))
        | None => None
        end
    | None => None
    end.
Proof. reflexivity. Qed.

Lemma removeAt_deeper (x x2 : str) (p : path) (es : gmap str node) :
  removeAt (x :: x2 :: p) (Dir es)
  = match es !! x with
    | Some c => Dir (<[x := removeAt (x2 :: p) c]> es)
    | None => Dir es
    end.
Proof. reflexivity. Qed.

(** [writeFileSync] changes nothing at a path that is not on the way to the
    file it writes. *)
Lemma writeAt_frame (p : path) (text : str) :
  forall (q : path) (n n1 : node),
    writeAt p text n = Some n1 -> ~ q `prefix_of` p ->
    lookupPath q n1 = lookupPath q n.
Proof.
  induction p as [|x p IH]; intros q n n1 Hw Hq; [done |].
  destruct q as [|y q]; [by destruct Hq; apply prefix_nil |].
  destruct n as [|es]; [by destruct p |].
  destruct p as [|x2 p].
  - simpl in Hw. simpl. destruct (decide (x = y)) as [<- | Hne].
    + assert (q <> []) as Hne by (intros ->; by apply Hq).
      destruct (es !! x) as [[|]|]; simplify_eq; rewrite lookup_insert_eq;
        by rewrite !lookupPath_file.
    + destruct (es !! x) as [[|]|]; simplify_eq; by rewrite lookup_insert_ne.
  - rewrite writeAt_deeper in Hw. destruct (es !! x) as [c|] eqn:Hx; [| congruence].
    destruct (writeAt (x2 :: p) text c) as [c'|] eqn:Hc; [| congruence].
    simplify_eq. simpl. destruct (decide (x = y)) as [<- | Hne].
    + rewrite lookup_insert_eq, Hx. apply not_prefix_cons in Hq.
      exact (IH q _ _ Hc Hq).
    + by rewrite lookup_insert_ne.
Qed.

(** [rmSync] changes nothing at a path that is neither above nor below the
    one it removes. *)
Lemma removeAt_frame (p : path) :
  forall (q : path) (n : node),
    ~ q `prefix_of` p -> ~ p `prefix_of` q ->
    lookupPath q (removeAt p n) = lookupPath q n.
Proof.
  induction p as [|x p IH]; intros q n Hq Hp; [done |].
  destruct q as [|y q]; [by destruct Hq; apply prefix_nil |].
  destruct n as [|es]; [by destruct p |].
  destruct p as [|x2 p].
  - simpl. destruct (decide (x = y)) as [<- | Hne].
    + destruct Hp. apply prefix_cons, prefix_nil.
    + by rewrite lookup_delete_ne.
  - rewrite removeAt_deeper. destruct (es !! x) as [c|] eqn:Hx; [| done].
    cbn [lookupPath]. destruct (decide (x = y)) as [<- | Hne].
    + rewrite lookup_insert_eq, Hx.
      apply not_prefix_cons in Hq. apply not_prefix_cons in Hp. by apply IH.
    + by rewrite lookup_insert_ne.
Qed.

(** After [rmSync] the path is gone. *)
Lemma removeAt_gone (p : path) :
  forall n : node, p <> [] -> lookupPath p (removeAt p n) = None.
Proof.
  induction p as [|x p IH]; intros n Hp; [done |].
  destruct n as [|es]; [by destruct p |].
  destruct p as [|x2 p].
  - simpl. by rewrite lookup_delete_eq.
  - rewrite removeAt_deeper. destruct (es !! x) as [c|] eqn:Hx.
    + cbn [lookupPath]. rewrite lookup_insert_eq. by apply IH.
    + cbn [lookupPath]. by rewrite Hx.
Qed.

(** [rmSync] of a path that is not there changes nothing. *)
Lemma removeAt_absent (p : path) :
  forall n : node, lookupPath p n = None -> removeAt p n = n.
Proof.
  induction p as [|x p IH]; intros n Hn; [done |].
  destruct n as [|es]; [by destruct p |].
  destruct p as [|x2 p].
  - simpl in *. destruct (es !! x) eqn:Hx; [done |]. by rewrite delete_id.
  - rewrite removeAt_deeper. cbn [lookupPath] in Hn.
    destruct (es !! x) as [c|] eqn:Hx; [| done].
    rewrite (IH c Hn). by rewrite insert_id.
Qed.

(** [mkdirSync] of a directory that is there changes nothing. *)
Lemma mkdirp_present (p : path) :
  forall (n : node) (es : gmap str node),
    lookupPath p n = Some (Dir es) -> mkdirp p n = Some n.
Proof.
  induction p as [|x p IH]; intros n es Hn; simpl in *.
  - by simplify_eq.
  - destruct n as [|es0]; [done |]. destruct (es0 !! x) as [c|] eqn:Hx; [| congruence].
    simpl. rewrite (IH c es Hn). by rewrite insert_id.
Qed.

(** ** What [generateCollection] touches *)

Lemma prefix_snoc_inv (q p : path) (x : str) :
  q `prefix_of` p ++ [x] -> q `prefix_of` p \/ q = p ++ [x].
Proof.
  intros [k Hk]. destruct (decide (k = [])) as [-> | Hne].
  - right. by rewrite app_nil_r in Hk.
  - left. destruct (exists_last Hne) as (k' & y & ->).
    rewrite app_assoc in Hk. apply app_inj_tail in Hk as [-> _]. by exists k'.
Qed.

Lemma not_prefix_below (q p r : path) :
  ~ q `prefix_of` p -> ~ p `prefix_of` q -> ~ q `prefix_of` p ++ r.
Proof.
  intros Hq Hp Hpre.
  destruct (prefix_weak_total q p (p ++ r) Hpre) as [? | ?]; [| done | done].
  by apply prefix_app_r.
Qed.

(** A path that is neither above nor below [T/d], and is no request file in
    [T], keeps what it holds through every such call, whatever the call
    ends in. *)
Lemma Writes_frame (T : path) (d : str) (H : path) (q : path) :
  ~ q `prefix_of` T ++ [d] -> ~ T ++ [d] `prefix_of` q ->
  (forall f, bruName f -> q <> T ++ [f]) ->
  forall {A} (m : io A),
    Writes T d H m -> forall s, lookupPath q (m s).1 = lookupPath q s.
Proof.
  intros Hq Hd Hf A m Hm.
  induction Hm as [A a|A o|A B m k Hm IHm Hk IHk| |r|r text Hr|f text Hbru| |x];
    intros s; try done.
  - unfold mbind, io_bind. destruct (m s) as [s1 [a|e|c]] eqn:Hms.
    + rewrite (IHk a s s1 Hms s1). specialize (IHm s). by rewrite Hms in IHm.
    + specialize (IHm s). by rewrite Hms in IHm.
    + specialize (IHm s). by rewrite Hms in IHm.
  - unfold mkdirSync, update. destruct (mkdirp T s) as [s1|] eqn:Hmk; [| done].
    simpl. apply (mkdirp_frame _ _ _ _ Hmk).
    intros Hpre. apply Hq. by apply prefix_app_r.
  - unfold mkdirSync, update.
    destruct (mkdirp (T ++ d :: r) s) as [s1|] eqn:Hmk; [| done].
    simpl. apply (mkdirp_frame _ _ _ _ Hmk).
    rewrite (cons_middle d), app_assoc. by apply not_prefix_below.
  - unfold writeFileSync, update.
    destruct (writeAt (T ++ d :: r) text s) as [s1|] eqn:Hw; [| done].
    simpl. apply (writeAt_frame _ _ _ _ _ Hw).
    rewrite (cons_middle d), app_assoc. by apply not_prefix_below.
  - unfold writeFileSync, update.
    destruct (writeAt (T ++ [f]) text s) as [s1|] eqn:Hw; [| done].
    simpl. apply (writeAt_frame _ _ _ _ _ Hw).
    intros Hpre. apply prefix_snoc_inv in Hpre as [Hpre | ->].
    + apply Hq. by apply prefix_app_r.
    + by apply (Hf f).
  - unfold readdirSync. by destruct (lookupPath H s) as [[|]|].
  - unfold readFileSync. by destruct (lookupPath (H ++ [x]) s) as [[|]|].
Qed.

Lemma joinPath_proper (dir : path) (name : str) :
  (3 <= length name)%nat -> joinPath dir name = dir ++ [name].
Proof.
  intros Hlen. unfold joinPath, str_eqb.
  rewrite !bool_decide_eq_false_2; [done | | |]; intros ->; simpl in Hlen; lia.
Qed.

Lemma joinPath_cases (T : path) (d folder : str) :
  joinPath (T ++ [d]) folder = T ++ [d]
  \/ joinPath (T ++ [d]) folder = T
  \/ joinPath (T ++ [d]) folder = T ++ [d; folder].
Proof.
  unfold joinPath.
  destruct (str_eqb folder [] || str_eqb folder (js ".")); [by left |].
  destruct (str_eqb folder (js "..")).
  - right. left. apply removelast_last.
  - right. right. by rewrite <- app_assoc.
Qed.

Lemma fileName_bru (request : Request) (index : N) (method_ url_ : option str)
    (name : str) :
  fileName request index method_ url_ = Ok name ->
  exists a, name = a ++ js ".bru".
Proof.
  unfold fileName.
  destruct (if truthy (comment request) then _ else _) as [slug|e|c];
    simpl; [| done | done].
  intros [= <-]. exists (padStart2 (numberToString (index + 1)) ++ js "-" ++ slug).
  by rewrite <- !app_assoc.
Qed.

Lemma bruName_bru (a : str) : bruName (a ++ js ".bru").
Proof.
  unfold bruName. change (js ".bru") with (js ".br" ++ [117]).
  rewrite app_assoc. apply last_snoc.
Qed.

Lemma joinPath_bru (dir : path) (a : str) :
  joinPath dir (a ++ js ".bru") = dir ++ [a ++ js ".bru"].
Proof. apply joinPath_proper. rewrite length_app. simpl. lia. Qed.

Lemma endsWith_length (s suffix : str) :
  endsWith s suffix = true -> (length suffix <= length s)%nat.
Proof.
  unfold endsWith. intros Hs. apply startsWith_app in Hs as [rest Hs].
  apply (f_equal length) in Hs. rewrite length_app, !length_rev in Hs. lia.
Qed.

Lemma In_insertSorted (x y : str) (l : list str) :
  In x (insertSorted y l) -> x = y \/ In x l.
Proof.
  induction l as [|z l IH]; simpl.
  - intros [<- | []]. by left.
  - destruct (str_leb y z); simpl; [intros [<- | H]; auto |].
    intros [<- | H]; [auto |]. destruct (IH H); auto.
Qed.

Lemma In_sort (x : str) (l : list str) : In x (sort l) -> In x l.
Proof.
  induction l as [|y l IH]; simpl; [done |].
  intros H. apply In_insertSorted in H as [-> | H]; auto.
Qed.

Lemma Writes_forEach (T : path) (d : str) (H : path) {A} (l : list A)
    (f : A -> io unit) :
  (forall x, In x l -> Writes T d H (f x)) -> Writes T d H (forEach l f).
Proof.
  induction l as [|a l IH]; intros Hf; simpl.
  - apply W_ret.
  - apply W_bind; [apply Hf; by left |].
    intros _ _ _ _. apply IH. intros x Hx. apply Hf. by right.
Qed.

Lemma Writes_writeRequests (T : path) (d : str) (H : path) (folderPath : path)
    (requests_ : list Request) :
  folderPath = T \/ (exists r, folderPath = T ++ d :: r) ->
  forall i, Writes T d H (writeRequests folderPath requests_ i).
Proof.
  intros Hfolder. induction requests_ as [|req rest IH]; intros i; simpl.
  - apply W_ret.
  - apply W_bind; [apply W_lift |]. intros name s s1 Hname.
    unfold lift in Hname. injection Hname as _ Hname.
    apply fileName_bru in Hname as [a ->].
    apply W_bind; [apply W_lift |]. intros content _ _ _.
    apply W_bind; [| intros; apply IH].
    rewrite joinPath_bru. destruct Hfolder as [-> | [r ->]].
    + apply W_write_request, bruName_bru.
    + rewrite <- app_assoc, <- app_comm_cons. apply W_write.
      by destruct r.
Qed.

Lemma Writes_generateCollection (ROOT T : path) (d : str) :
  Writes T d (HURL_DIR ROOT) (generateCollection ROOT (T ++ [d])).
Proof.
  unfold generateCollection.
  rewrite !(joinPath_proper _ (js "bruno.json")),
    !(joinPath_proper _ (js "collection.bru")),
    !(joinPath_proper _ (js "environments")),
    !(joinPath_proper _ (js "local.bru")) by (simpl; lia).
  rewrite <- !app_assoc. simpl.
  apply W_bind; [apply (W_mkdir T d _ []) |]. intros _ _ _ _.
  apply W_bind; [by apply W_write |]. intros _ _ _ _.
  apply W_bind; [by apply W_write |]. intros _ _ _ _.
  apply W_bind; [apply W_mkdir |]. intros _ _ _ _.
  apply W_bind; [by apply W_write |]. intros _ _ _ _.
  apply W_bind; [apply W_readdir |]. intros entries _ _ _.
  apply Writes_forEach. intros hurlFile Hin.
  apply In_sort, filter_In in Hin as [_ Hhurl].
  rewrite (joinPath_proper _ hurlFile)
    by (apply endsWith_length in Hhurl; simpl in Hhurl; lia).
  apply W_bind.
  { unfold parseHurlFileAt. apply W_bind; [apply W_readFile |].
    intros; apply W_lift. }
  intros requests_ _ _ _.
  destruct (joinPath_cases T d (folderName hurlFile)) as [-> | [-> | ->]].
  - apply W_bind; [apply (W_mkdir T d _ []) |]. intros _ _ _ _.
    apply Writes_writeRequests. right. by exists [].
  - apply W_bind; [apply W_mkdir_parent |]. intros _ _ _ _.
    apply Writes_writeRequests. by left.
  - apply W_bind; [apply (W_mkdir T d _ [_]) |]. intros _ _ _ _.
    apply Writes_writeRequests. right. by eexists [_].
Qed.

(** ** Check mode *)

Lemma tempDir_eq (tmp : path) (now : N) :
  tempDir tmp now = tmp ++ [js "bruno-check-" ++ numberToString now].
Proof. apply joinPath_proper. simpl. lia. Qed.

Lemma BRUNO_DIR_eq (ROOT : path) : BRUNO_DIR ROOT = ROOT ++ [js "bruno"].
Proof. reflexivity. Qed.

Lemma HURL_DIR_eq (ROOT : path) : HURL_DIR ROOT = ROOT ++ [js "hurl"].
Proof. reflexivity. Qed.

(** Where [checkMode] leaves the file system: where the regeneration left
    it when the process exits inside the [try], and that with the scratch
    directory removed on every other way out. *)
Lemma checkMode_state (ROOT tmp : path) (now : N) (fs : node) :
  let generated := (generateCollection ROOT (tempDir tmp now) fs).1 in
  match (checkMode ROOT tmp now fs).2 with
  | Exit _ => (checkMode ROOT tmp now fs).1 = generated
  | _ => (checkMode ROOT tmp now fs).1 = removeAt (tempDir tmp now) generated
  end.
Proof.
  unfold checkMode, tryFinally, mbind, io_bind.
  destruct (generateCollection ROOT (tempDir tmp now) fs) as [s1 [[]|e|c]];
    simpl; try done.
  unfold collectFiles.
  destruct (lookupPath (tempDir tmp now) s1) as [[|expectedEntries]|]; simpl;
    try done;
    destruct (lookupPath (BRUNO_DIR ROOT) s1) as [[|actualEntries]|]; simpl;
    try done;
    match goal with
    | |- context [flat_map ?f ?l] => destruct (flat_map f l)
    end; done.
Qed.

(** C5: when the scratch directory is neither inside the committed target
    directory nor above it, check mode leaves the committed target tree as it
    was, whatever the source and the committed tree hold and however the
    check ends (success, an exception, or the exit on differences): the
    subtree at [BRUNO_DIR] is the same before and after, and so is what is
    found at every path below it. *)
Theorem checkMode_leaves_committed_tree (ROOT tmp : path) (now : N) (fs : node) :
  ~ BRUNO_DIR ROOT `prefix_of` tempDir tmp now ->
  ~ tempDir tmp now `prefix_of` BRUNO_DIR ROOT ->
  lookupPath (BRUNO_DIR ROOT) (checkMode ROOT tmp now fs).1
  = lookupPath (BRUNO_DIR ROOT) fs
  /\ forall rel,
       lookupPath (BRUNO_DIR ROOT ++ rel) (checkMode ROOT tmp now fs).1
       = lookupPath (BRUNO_DIR ROOT ++ rel) fs.
Proof.
  intros Hinside Habove.
  assert (Hsub : lookupPath (BRUNO_DIR ROOT) (checkMode ROOT tmp now fs).1
                 = lookupPath (BRUNO_DIR ROOT) fs).
  { assert (Hgen : lookupPath (BRUNO_DIR ROOT)
                     (generateCollection ROOT (tempDir tmp now) fs).1
                   = lookupPath (BRUNO_DIR ROOT) fs).
    { rewrite tempDir_eq in *.
      apply (Writes_frame tmp (js "bruno-check-" ++ numberToString now)
               (HURL_DIR ROOT)); [done | done | |].
      - intros f Hbru Heq. rewrite BRUNO_DIR_eq in Heq.
        apply app_inj_tail in Heq as [_ <-]. by vm_compute in Hbru.
      - apply Writes_generateCollection. }
    pose proof (checkMode_state ROOT tmp now fs) as Hstate. cbv zeta in Hstate.
    destruct (checkMode ROOT tmp now fs).2; rewrite Hstate; try done;
      by rewrite removeAt_frame. }
  split; [exact Hsub |].
  intros rel. by rewrite !lookupPath_app, Hsub.
Qed.

Lemma checkMode_leaves_committed_tree_witness :
  lookupPath (BRUNO_DIR exampleRoot)
    (checkMode exampleRoot exampleTmp exampleNow exampleFs).1
  = lookupPath (BRUNO_DIR exampleRoot) exampleFs
  /\ forall rel,
       lookupPath (BRUNO_DIR exampleRoot ++ rel)
         (checkMode exampleRoot exampleTmp exampleNow exampleFs).1
       = lookupPath (BRUNO_DIR exampleRoot ++ rel) exampleFs.
Proof.
  apply (checkMode_leaves_committed_tree exampleRoot exampleTmp exampleNow exampleFs).
  - intros [k Hk]. vm_compute in Hk. discriminate Hk.
  - intros [k Hk]. vm_compute in Hk. discriminate Hk.
Defined.

Lemma checkMode_removes_scratch_unless_exit (ROOT tmp : path) (now : N) (fs : node) :
  match (checkMode ROOT tmp now fs).2 with
  | Exit _ => True
  | _ => lookupPath (tempDir tmp now) (checkMode ROOT tmp now fs).1 = None
  end.
Proof.
  pose proof (checkMode_state ROOT tmp now fs) as Hstate. cbv zeta in Hstate.
  destruct (checkMode ROOT tmp now fs).2; [| | done]; rewrite Hstate;
    apply removeAt_gone; rewrite tempDir_eq; by destruct tmp.
Qed.

(** C3, evaluated on the code: on a committed collection that is out of
    date, check mode ends in [process.exit(1)] and the scratch directory is
    still there afterwards, with the regenerated files in it; the [finally]
    that removes it runs on the other ways out only. *)
Theorem checkMode_exit_leaves_scratch_directory :
  (checkMode exampleRoot exampleTmp exampleNow exampleFs).2 = Exit 1
  /\ lookupPath (tempDir exampleTmp exampleNow ++ [js "bruno.json"])
       (checkMode exampleRoot exampleTmp exampleNow exampleFs).1
     = Some (File brunoJson)
  /\ lookupPath (tempDir exampleTmp exampleNow)
       (checkMode exampleRoot exampleTmp exampleNow exampleFs).1
     <> None.
Proof. repeat split; vm_compute; congruence. Qed.

(** ** Regeneration *)

(** A call at a path below [T] acts on the node at [T]. *)
Lemma mkdirp_at (T r : path) :
  forall (n m : node),
    lookupPath T n = Some m ->
    match mkdirp r m with
    | Some m1 =>
        exists n1, mkdirp (T ++ r) n = Some n1 /\ lookupPath T n1 = Some m1
    | None => mkdirp (T ++ r) n = None
    end.
Proof.
  induction T as [|x T IH]; intros n m Hn; simpl in Hn.
  - simplify_eq. simpl. destruct (mkdirp r m); eauto.
  - destruct n as [|es]; [done |]. destruct (es !! x) as [c|] eqn:Hx; [| done].
    specialize (IH c m Hn). simpl. rewrite Hx. simpl.
    destruct (mkdirp r m) as [m1|].
    + destruct IH as (c1 & -> & Hc1). eexists. split; [done |].
      simpl. by rewrite lookup_insert_eq.
    + by rewrite IH.
Qed.

Lemma writeAt_at (T r : path) (text : str) :
  r <> [] ->
  forall (n m : node),
    lookupPath T n = Some m ->
    match writeAt r text m with
    | Some m1 =>
        exists n1, writeAt (T ++ r) text n = Some n1 /\ lookupPath T n1 = Some m1
    | None => writeAt (T ++ r) text n = None
    end.
Proof.
  intros Hr. induction T as [|x T IH]; intros n m Hn; simpl in Hn.
  - simplify_eq. simpl. destruct (writeAt r text m); eauto.
  - destruct n as [|es]; [done |]. destruct (es !! x) as [c|] eqn:Hx; [| done].
    specialize (IH c m Hn).
    destruct (T ++ r) as [|y rest] eqn:Hrest.
    { apply app_eq_nil in Hrest as [_ ->]. done. }
    rewrite <- app_comm_cons, Hrest, writeAt_deeper, Hx.
    destruct (writeAt r text m) as [m1|].
    + destruct IH as (c1 & -> & Hc1). eexists. split; [done |].
      simpl. by rewrite lookup_insert_eq.
    + by rewrite IH.
Qed.

Lemma removeAt_at (T : path) (d : str) :
  forall (n : node) (es : gmap str node),
    lookupPath T n = Some (Dir es) ->
    lookupPath T (removeAt (T ++ [d]) n) = Some (Dir (delete d es)).
Proof.
  induction T as [|x T IH]; intros n es Hn; simpl in Hn.
  - by simplify_eq.
  - destruct n as [|es0]; [done |]. destruct (es0 !! x) as [c|] eqn:Hx; [| done].
    assert (Hrest : exists y rest, T ++ [d] = y :: rest).
    { destruct T; simpl; eauto. }
    destruct Hrest as (y & rest & Hrest).
    rewrite <- app_comm_cons, Hrest, removeAt_deeper, Hx, <- Hrest.
    simpl. rewrite lookup_insert_eq. by apply IH.
Qed.

Section Rerun.

Variable T : path.
Variables d h : str.
Hypothesis d_not_h : d <> h.
Hypothesis d_not_bru : ~ bruName d.
Hypothesis h_not_bru : ~ bruName h.

Lemma related_insert (es es' : gmap str node) (c : node) :
  related d h es es' -> related d h (<[d := c]> es) (<[d := c]> es').
Proof.
  intros (Hd & Hh & Hf). split; [by rewrite !lookup_insert_eq |].
  split; [by rewrite !lookup_insert_ne |].
  intros f Hbru. assert (d <> f) by (by intros ->).
  rewrite !lookup_insert_ne by done. by apply Hf.
Qed.

(** A call that went through in the first run goes through in the run
    after it, with the same result, and the two runs stay related. *)
Lemma Writes_rerun {A} (m : io A) :
  Writes T d (T ++ [h]) m ->
  forall s s' s1 a,
    Rel T d h s s' -> m s = (s1, Ok a) ->
    exists s1', m s' = (s1', Ok a) /\ Rel T d h s1 s1'.
Proof.
  intros Hm.
  induction Hm as [A a|A o|A B m k Hm IHm Hk IHk| |r|r text Hr|f text Hbru| |x];
    intros s s' s1 res HRel Hrun.
  - injection Hrun as <- <-. by exists s'.
  - unfold lift in *. injection Hrun as <- <-. by exists s'.
  - unfold mbind, io_bind in *.
    destruct (m s) as [s0 [a|e|c]] eqn:Hms; [| done | done].
    destruct (IHm s s' s0 a HRel Hms) as (s0' & -> & HRel0).
    exact (IHk a s s0 Hms s0 s0' s1 res HRel0 Hrun).
  - destruct HRel as (es & es' & Hs & Hs' & Hrel).
    unfold mkdirSync, update in *.
    rewrite (mkdirp_present T s es Hs) in Hrun. injection Hrun as <- <-.
    rewrite (mkdirp_present T s' es' Hs'). exists s'. split; [done |].
    by exists es, es'.
  - destruct HRel as (es & es' & Hs & Hs' & Hrel).
    unfold mkdirSync, update in *.
    pose proof (mkdirp_at T (d :: r) s (Dir es) Hs) as Hat.
    pose proof (mkdirp_at T (d :: r) s' (Dir es') Hs') as Hat'.
    simpl in Hat, Hat'. destruct Hrel as (Hd & Hrel). rewrite <- Hd in Hat'.
    destruct (mkdirp r (default (Dir ∅) (es !! d))) as [c|].
    + destruct Hat as (n1 & Hn1 & Hlook), Hat' as (n1' & Hn1' & Hlook').
      rewrite Hn1 in Hrun. injection Hrun as <- <-. rewrite Hn1'.
      eexists. split; [done |]. exists (<[d := c]> es), (<[d := c]> es').
      split; [done |]. split; [done |]. by apply related_insert.
    + by rewrite Hat in Hrun.
  - destruct HRel as (es & es' & Hs & Hs' & Hrel).
    unfold writeFileSync, update in *.
    pose proof (writeAt_at T (d :: r) text ltac:(done) s (Dir es) Hs) as Hat.
    pose proof (writeAt_at T (d :: r) text ltac:(done) s' (Dir es') Hs') as Hat'.
    destruct r as [|y r]; [done |]. rewrite writeAt_deeper in Hat, Hat'.
    destruct Hrel as (Hd & Hrel). rewrite <- Hd in Hat'.
    destruct (es !! d) as [c0|] eqn:Hesd; [| by rewrite Hat in Hrun].
    destruct (writeAt (y :: r) text c0) as [c|]; [| by rewrite Hat in Hrun].
    destruct Hat as (n1 & Hn1 & Hlook), Hat' as (n1' & Hn1' & Hlook').
    rewrite Hn1 in Hrun. injection Hrun as <- <-. rewrite Hn1'.
    eexists. split; [done |]. exists (<[d := c]> es), (<[d := c]> es').
    split; [done |]. split; [done |]. apply related_insert.
    split; [by rewrite Hesd | done].
  - destruct HRel as (es & es' & Hs & Hs' & Hd & Hh & Hf).
    unfold writeFileSync, update in *.
    pose proof (writeAt_at T [f] text ltac:(done) s (Dir es) Hs) as Hat.
    pose proof (writeAt_at T [f] text ltac:(done) s' (Dir es') Hs') as Hat'.
    simpl in Hat, Hat'.
    assert (d <> f) by (by intros ->). assert (h <> f) by (by intros ->).
    assert (Hok : exists n1', writeAt (T ++ [f]) text s' = Some n1'
                    /\ lookupPath T n1' = Some (Dir (<[f := File text]> es'))).
    { destruct (Hf f Hbru) as [Heq | [t Heq]]; rewrite Heq in Hat'.
      - destruct (es !! f) as [[|]|]; try done. by rewrite Hat in Hrun.
      - done. }
    destruct Hok as (n1' & Hn1' & Hlook'). rewrite Hn1'.
    assert (Hok : lookupPath T s1 = Some (Dir (<[f := File text]> es)) /\ res = ()).
    { destruct (es !! f) as [[|]|]; [| by rewrite Hat in Hrun |];
        destruct Hat as (n1 & Hn1 & Hlook); rewrite Hn1 in Hrun;
        by injection Hrun as <- <-. }
    destruct Hok as [Hlook ->].
    eexists. split; [done |]. eexists _, _. split; [done |]. split; [done |].
    split; [by rewrite !lookup_insert_ne |].
    split; [by rewrite !lookup_insert_ne |].
    intros f' Hbru'. destruct (decide (f = f')) as [<- | Hne].
    + left. by rewrite !lookup_insert_eq.
    + rewrite !lookup_insert_ne by done. by apply Hf.
  - destruct HRel as (es & es' & Hs & Hs' & Hrel).
    pose proof Hrel as (Hd & Hh & Hf).
    unfold readdirSync in *. rewrite lookupPath_app, Hs in Hrun.
    rewrite lookupPath_app, Hs'. simpl in *. rewrite <- Hh.
    destruct (es !! h) as [[|entries]|]; try done.
    injection Hrun as <- <-. exists s'. split; [done |]. by exists es, es'.
  - destruct HRel as (es & es' & Hs & Hs' & Hrel).
    pose proof Hrel as (Hd & Hh & Hf).
    unfold readFileSync in *. rewrite !lookupPath_app, Hs in Hrun.
    rewrite !lookupPath_app, Hs'. simpl in *. rewrite <- Hh.
    destruct (es !! h) as [[|entries]|]; try done. simpl in *.
    destruct (entries !! x) as [[|]|]; try done.
    injection Hrun as <- <-. exists s'. split; [done |]. by exists es, es'.
Qed.

End Rerun.

(** Through every call of [generateCollection] the directory [T] stays a
    directory, its entry [h] stays as it is, and an entry with the name of a
    request file stays as it is or becomes a regular file. *)
Lemma Writes_keeps (T : path) (d h : str) (H : path) :
  d <> h -> ~ bruName d -> ~ bruName h ->
  forall {A} (m : io A),
    Writes T d H m ->
    forall s es,
      lookupPath T s = Some (Dir es) ->
      exists es1,
        lookupPath T (m s).1 = Some (Dir es1) /\ es1 !! h = es !! h
        /\ forall f, bruName f -> es1 !! f = es !! f \/ isFileEntry (es1 !! f).
Proof.
  intros Hdh Hd Hh A m Hm.
  induction Hm as [A a|A o|A B m k Hm IHm Hk IHk| |r|r text Hr|f text Hbru| |x];
    intros s es Hs.
  - exists es. simpl. auto.
  - exists es. simpl. auto.
  - unfold mbind, io_bind.
    destruct (IHm s es Hs) as (es0 & Hs0 & Hh0 & Hf0).
    destruct (m s) as [s0 [a|e|c]] eqn:Hms; simpl in Hs0;
      [| exists es0; simpl; auto | exists es0; simpl; auto].
    destruct (IHk a s s0 Hms s0 es0 Hs0) as (es1 & Hs1 & Hh1 & Hf1).
    exists es1. split; [done |]. split; [congruence |].
    intros f Hbru. destruct (Hf1 f Hbru) as [-> | ?]; auto.
  - unfold mkdirSync, update. rewrite (mkdirp_present T s es Hs).
    exists es. simpl. auto.
  - unfold mkdirSync, update.
    pose proof (mkdirp_at T (d :: r) s (Dir es) Hs) as Hat. simpl in Hat.
    destruct (mkdirp r (default (Dir ∅) (es !! d))) as [c|].
    + destruct Hat as (n1 & -> & Hlook). exists (<[d := c]> es). simpl.
      split; [done |]. split; [by rewrite lookup_insert_ne |].
      intros f Hbru. left. rewrite lookup_insert_ne; [done | by intros ->].
    + rewrite Hat. exists es. simpl. auto.
  - unfold writeFileSync, update.
    pose proof (writeAt_at T (d :: r) text ltac:(done) s (Dir es) Hs) as Hat.
    destruct r as [|y r]; [done |]. rewrite writeAt_deeper in Hat.
    destruct (es !! d) as [c0|]; [| rewrite Hat; exists es; simpl; auto].
    destruct (writeAt (y :: r) text c0) as [c|];
      [| rewrite Hat; exists es; simpl; auto].
    destruct Hat as (n1 & -> & Hlook). exists (<[d := c]> es). simpl.
    split; [done |]. split; [by rewrite lookup_insert_ne |].
    intros f Hbru. left. rewrite lookup_insert_ne; [done | by intros ->].
  - unfold writeFileSync, update.
    pose proof (writeAt_at T [f] text ltac:(done) s (Dir es) Hs) as Hat.
    simpl in Hat.
    assert (Hcase : (exists n1, writeAt (T ++ [f]) text s = Some n1
                       /\ lookupPath T n1 = Some (Dir (<[f := File text]> es)))
                    \/ writeAt (T ++ [f]) text s = None).
    { destruct (es !! f) as [[|]|]; auto. }
    destruct Hcase as [(n1 & -> & Hlook) | ->]; [| exists es; simpl; auto].
    exists (<[f := File text]> es). simpl. split; [done |].
    split; [rewrite lookup_insert_ne; [done | by intros ->] |].
    intros f' Hbru'. destruct (decide (f = f')) as [<- | Hne].
    + right. rewrite lookup_insert_eq. by eexists.
    + left. by rewrite lookup_insert_ne.
  - exists es. unfold readdirSync. destruct (lookupPath H s) as [[|]|]; simpl; auto.
  - exists es. unfold readFileSync.
    destruct (lookupPath (H ++ [x]) s) as [[|]|]; simpl; auto.
Qed.

(** A generation that goes through has read its source directory, which was
    there from the start. *)
Lemma generateCollection_needs_source (ROOT T : path) (d : str) (s s1 : node) :
  ~ HURL_DIR ROOT `prefix_of` T ++ [d] -> ~ T ++ [d] `prefix_of` HURL_DIR ROOT ->
  generateCollection ROOT (T ++ [d]) s = (s1, Ok ()) ->
  exists entries, lookupPath (HURL_DIR ROOT) s = Some (Dir entries).
Proof.
  intros Hq Hd. unfold generateCollection.
  rewrite !(joinPath_proper _ (js "bruno.json")),
    !(joinPath_proper _ (js "collection.bru")),
    !(joinPath_proper _ (js "environments")),
    !(joinPath_proper _ (js "local.bru")) by (simpl; lia).
  unfold mbind, io_bind, mkdirSync, writeFileSync, update.
  destruct (mkdirp (T ++ [d]) s) as [u1|] eqn:E1; [| done].
  destruct (writeAt _ brunoJson u1) as [u2|] eqn:E2; [| done].
  destruct (writeAt _ collectionBru u2) as [u3|] eqn:E3; [| done].
  destruct (mkdirp _ u3) as [u4|] eqn:E4; [| done].
  destruct (writeAt _ localBru u4) as [u5|] eqn:E5; [| done].
  unfold readdirSync.
  destruct (lookupPath (HURL_DIR ROOT) u5) as [[|entries]|] eqn:E6; [done | | done].
  intros _. exists entries.
  rewrite <- (mkdirp_frame _ _ _ _ E1 Hq).
  rewrite <- (writeAt_frame _ _ _ _ _ E2) by (by apply not_prefix_below).
  rewrite <- (writeAt_frame _ _ _ _ _ E3) by (by apply not_prefix_below).
  rewrite <- (mkdirp_frame _ _ _ _ E4) by (by apply not_prefix_below).
  rewrite <- (writeAt_frame _ _ _ _ _ E5)
    by (rewrite <- app_assoc; by apply not_prefix_below).
  exact E6.
Qed.

Lemma collectFiles_state (dir : path) (prefix : str) (s : node) :
  (collectFiles dir prefix s).1 = s.
Proof. unfold collectFiles. by destruct (lookupPath dir s) as [[|]|]. Qed.

Lemma collectFiles_same (dir : path) (prefix : str) (s s' : node) :
  lookupPath dir s = lookupPath dir s' ->
  (collectFiles dir prefix s).2 = (collectFiles dir prefix s').2.
Proof. unfold collectFiles. intros <-. by destruct (lookupPath dir s) as [[|]|]. Qed.

(** Generate mode is: remove the target directory, generate, count. *)
Lemma main_generate (ROOT tmp : path) (now : N) (fs : node) :
  main ROOT tmp now false fs
  = (generateCollection ROOT (BRUNO_DIR ROOT);;
     files ← collectFiles (BRUNO_DIR ROOT) [];
     mret ()) (removeAt (BRUNO_DIR ROOT) fs).
Proof.
  unfold main. unfold mbind at 1. unfold io_bind at 1. unfold existsSync.
  destruct (lookupPath (BRUNO_DIR ROOT) fs) eqn:Hthere.
  - reflexivity.
  - by rewrite (removeAt_absent _ _ Hthere).
Qed.

(** C4: when a run of generate mode goes through, a second run on the file
    system it left goes through as well and leaves the same target tree:
    the node at [BRUNO_DIR] is the same after both runs, and [collectFiles]
    returns the same map from relative paths to contents for both. *)
Theorem regeneration_is_idempotent (ROOT tmp : path) (now : N) (fs fs1 : node) :
  main ROOT tmp now false fs = (fs1, Ok ()) ->
  exists fs2,
    main ROOT tmp now false fs1 = (fs2, Ok ())
    /\ lookupPath (BRUNO_DIR ROOT) fs2 = lookupPath (BRUNO_DIR ROOT) fs1
    /\ (collectFiles (BRUNO_DIR ROOT) [] fs2).2
       = (collectFiles (BRUNO_DIR ROOT) [] fs1).2.
Proof.
  rewrite !main_generate. rewrite BRUNO_DIR_eq.
  set (d := js "bruno"). set (h := js "hurl").
  assert (Hdh : d <> h) by done.
  assert (Hd : ~ bruName d) by (by vm_compute).
  assert (Hh : ~ bruName h) by (by vm_compute).
  set (u := removeAt (ROOT ++ [d]) fs).
  unfold mbind at 1. unfold io_bind at 1.
  destruct (generateCollection ROOT (ROOT ++ [d]) u) as [s1 [[]|e|c]] eqn:Hgen;
    [| done | done].
  unfold mbind at 1. unfold io_bind at 1.
  pose proof (collectFiles_state (ROOT ++ [d]) [] s1) as Hstate.
  destruct (collectFiles (ROOT ++ [d]) [] s1) as [s1' [files|e|c]] eqn:Hcol;
    [| done | done].
  simpl in Hstate. subst s1'. intros [= <-].
  (* the source directory was there, so [ROOT] is a directory *)
  destruct (generateCollection_needs_source ROOT ROOT d u s1) as [entries Hsrc];
    [| | done |].
  { rewrite HURL_DIR_eq. intros Hpre. apply prefix_app_inv in Hpre.
    apply prefix_cons_inv_1 in Hpre. done. }
  { rewrite HURL_DIR_eq. intros Hpre. apply prefix_app_inv in Hpre.
    apply prefix_cons_inv_1 in Hpre. done. }
  rewrite HURL_DIR_eq, lookupPath_app in Hsrc.
  destruct (lookupPath ROOT u) as [[|es]|] eqn:Hroot; try done.
  assert (Hnone : es !! d = None).
  { pose proof (removeAt_gone (ROOT ++ [d]) fs ltac:(by destruct ROOT)) as Hgone.
    fold u in Hgone. rewrite lookupPath_app, Hroot in Hgone. simpl in Hgone.
    by destruct (es !! d). }
  (* the first run, seen from [ROOT] *)
  destruct (Writes_keeps ROOT d h (HURL_DIR ROOT) Hdh Hd Hh _
              (Writes_generateCollection ROOT ROOT d) u es Hroot)
    as (es1 & Hroot1 & Hh1 & Hf1).
  rewrite Hgen in Hroot1. simpl in Hroot1.
  set (u' := removeAt (ROOT ++ [d]) s1).
  assert (HRel : Rel ROOT d h u u').
  { exists es, (delete d es1). split; [done |].
    split; [by apply removeAt_at |].
    split; [by rewrite lookup_delete_eq |].
    split; [by rewrite lookup_delete_ne |].
    intros f Hbru. rewrite lookup_delete_ne by (by intros ->). by apply Hf1. }
  (* the second run *)
  destruct (Writes_rerun ROOT d h Hdh Hd Hh _
              (Writes_generateCollection ROOT ROOT d) u u' s1 () HRel Hgen)
    as (s2 & Hgen2 & (e1 & e2 & He1 & He2 & Hsame & _)).
  assert (Htree : lookupPath (ROOT ++ [d]) s2 = lookupPath (ROOT ++ [d]) s1).
  { rewrite !lookupPath_app, He1, He2. simpl. by rewrite Hsame. }
  pose proof (collectFiles_same (ROOT ++ [d]) [] s2 s1 Htree) as Hfiles.
  pose proof (collectFiles_state (ROOT ++ [d]) [] s2) as Hstate2.
  exists s2. split; [| by split].
  unfold mbind at 1. unfold io_bind at 1. rewrite Hgen2.
  unfold mbind at 1. unfold io_bind at 1.
  destruct (collectFiles (ROOT ++ [d]) [] s2) as [s2' r2].
  simpl in Hstate2, Hfiles. subst s2'. rewrite Hfiles, Hcol. reflexivity.
Qed.

Lemma regeneration_is_idempotent_witness :
  exists fs2,
    main exampleRoot exampleTmp exampleNow false
      (main exampleRoot exampleTmp exampleNow false exampleFs).1
    = (fs2, Ok ())
    /\ lookupPath (BRUNO_DIR exampleRoot) fs2
       = lookupPath (BRUNO_DIR exampleRoot)
           (main exampleRoot exampleTmp exampleNow false exampleFs).1
    /\ (collectFiles (BRUNO_DIR exampleRoot) [] fs2).2
       = (collectFiles (BRUNO_DIR exampleRoot) []
            (main exampleRoot exampleTmp exampleNow false exampleFs).1).2.
Proof.
  apply (regeneration_is_idempotent exampleRoot exampleTmp exampleNow exampleFs).
  vm_compute. reflexivity.
Defined.

(** * Further properties *)

(** ** More on the parser *)

Lemma feed_blank_lines (blanks : list str) (p : Parser) :
  isBODY (state p) = false ->
  Forall (fun line => trim line = []) blanks ->
  feed p blanks = Ok p.
Proof.
  intros Hstate Hblank. induction Hblank as [|line blanks Hline _ IH]; [done |].
  simpl. unfold step. cbv zeta. rewrite Hline, Hstate. simpl. exact IH.
Qed.

Lemma step_comment_line (p : Parser) (line : str) :
  isBODY (state p) = false ->
  startsWith (trim line) (js "#") = true ->
  step p line
  = Ok (setState
          (setCurrent (pushCurrent p)
             (Some (newRequest (Some (stripHash (trim line))))))
          IDLE).
Proof.
  intros Hstate Hhash. unfold step. cbv zeta. rewrite Hhash, Hstate.
  destruct (trim line); [discriminate Hhash | reflexivity].
Qed.

(** The parser returns on every file whose first line that is not blank is
    a comment line or a method line, and on every file of blank lines only:
    a [TypeError] needs a status, capture or assertion line with no record
    open. *)
Theorem parser_returns_once_a_record_is_open (blanks rest : list str) (first : str) :
  Forall (fun line => trim line = []) blanks ->
  startsWith (trim first) (js "#") = true
  \/ is_Some (matchAll reMethod (trim first)) ->
  parseLines blanks = Ok []
  /\ exists records, parseLines (blanks ++ first :: rest) = Ok records.
Proof.
  intros Hblank Hfirst. unfold parseLines.
  rewrite feed_app, (feed_blank_lines blanks initial eq_refl Hblank).
  split; [reflexivity |]. simpl.
  assert (Hopen : exists p1 cur, step initial first = Ok p1 /\ current p1 = Some cur).
  { destruct Hfirst as [Hhash | [mm Hmm]].
    - rewrite (step_comment_line initial first eq_refl Hhash). by eexists _, _.
    - destruct (method_line_opens initial first mm eq_refl Hmm)
        as (p1 & r & Hstep & Hcur & _). by exists p1, r. }
  destruct Hopen as (p1 & cur & -> & Hcur). simpl.
  destruct (feed_open rest p1 cur Hcur) as (p' & cur' & -> & _). simpl. eauto.
Qed.

Lemma parser_returns_once_a_record_is_open_witness :
  parseLines [[]; js "  "] = Ok []
  /\ exists records,
       parseLines ([[]; js "  "]
                     ++ js "# Tags" :: [js "HTTP 200"; js "[Asserts]"; js "status == 200"])
       = Ok records.
Proof.
  apply (parser_returns_once_a_record_is_open [[]; js "  "]
           [js "HTTP 200"; js "[Asserts]"; js "status == 200"] (js "# Tags")).
  - repeat constructor.
  - left. vm_compute. reflexivity.
Defined.

Lemma wellFormed_truthy (r : Request) :
  method r = None \/ wellFormed r -> truthy (method r) = true -> wellFormed r.
Proof. intros [Hnone | Hwf] Htruthy; [by rewrite Hnone in Htruthy | done]. Qed.

Lemma pushCurrent_inv (p : Parser) : parserInv p -> parserInv (pushCurrent p).
Proof.
  intros [Hreqs Hcur]. unfold pushCurrent.
  destruct (current p) as [cur|] eqn:Hc;
    [| split; [done | intros cur Hcur'; congruence]].
  specialize (Hcur cur eq_refl).
  assert (Hfb : requests (finishBody p) = requests p
                /\ exists cur', current (finishBody p) = Some cur'
                                /\ method cur' = method cur /\ url cur' = url cur).
  { unfold finishBody. rewrite Hc. destruct (bodyLines p); simpl; eauto. }
  destruct Hfb as (Hr & cur' & Hc' & Hm' & Hu'). rewrite Hc'.
  assert (Hcur' : method cur' = None \/ wellFormed cur').
  { destruct Hcur as [Hn | (v & a & Hm & Hv & Hu)]; [left; congruence |].
    right. exists v, a. repeat split; congruence. }
  split; [| done].
  destruct (truthy (method cur')) eqn:Htruthy; simpl; rewrite ?Hr; [| done].
  apply Forall_app. split; [done |]. apply Forall_singleton.
  by apply wellFormed_truthy.
Qed.

Lemma step_inv (p p' : Parser) (line : str) :
  parserInv p -> step p line = Ok p' -> parserInv p'.
Proof.
  intros Hinv.
  assert (Hverb : forall mm, matchAll reMethod (trim line) = Some mm ->
                             group mm 1 ∈ verbs).
  { intros mm Hmm. by apply reMethod_verb in Hmm as (verb & rest & _ & Hin & ->). }
  pose proof (pushCurrent_inv p Hinv) as Hpushed.
  abstract_tests line.
  remember (pushCurrent p) as pushed eqn:Heq. clear Heq.
  unfold onCurrent, finishBody.
  destruct Hinv as [Hreqs Hcur], Hpushed as [Hreqs' Hcur'].
  destruct p as [reqs c st bl d], pushed as [reqs0 c0 st0 bl0 d0].
  simpl in *.
  assert (Hkeep : forall cur, c = Some cur -> method cur = None \/ wellFormed cur)
    by exact Hcur.
  destruct st; simpl; split_tests; simpl in *; intros Hstep; simplify_eq;
    (split; simpl; [done |]);
    intros cur' Hcur''; simplify_eq; simpl;
    try (left; reflexivity);
    try (right; eexists _, _; split; [reflexivity |];
         split; [by apply Hverb | reflexivity]);
    try (by apply Hkeep).
  all: destruct (Hkeep r eq_refl) as [Hn | (v & a & Hm & Hv & Hu)];
    [by left | right; by exists v, a].
Qed.

Lemma feed_inv (lines : list str) :
  forall p p', parserInv p -> feed p lines = Ok p' -> parserInv p'.
Proof.
  induction lines as [|line lines IH]; intros p p' Hinv; simpl.
  - by intros [= <-].
  - destruct (step p line) as [p1|e|c] eqn:Hstep; simpl; [| done | done].
    apply IH. by eapply step_inv.
Qed.

Lemma wellFormed_generates (r : Request) :
  wellFormed r ->
  forall index seq,
    (exists name, fileName r index (method r) (url r) = Ok name)
    /\ exists text, generateBruFile r seq = Ok text.
Proof.
  intros (verb & address & Hm & _ & Hu) index seq.
  unfold fileName, generateBruFile. rewrite Hm, Hu. simpl.
  destruct (truthy (comment r)); simpl; eauto.
Qed.

(** Every record the parser returns has one of the five verbs and an
    address, so neither [fileName] nor [generateBruFile] dereferences a
    null on it: whatever the file, the generator does not throw on what the
    parser hands over. *)
Theorem parsed_records_are_well_formed (lines : list str) (records : list Request) :
  parseLines lines = Ok records ->
  Forall
    (fun r =>
       wellFormed r
       /\ forall index seq,
            (exists name, fileName r index (method r) (url r) = Ok name)
            /\ exists text, generateBruFile r seq = Ok text)
    records.
Proof.
  unfold parseLines.
  destruct (feed initial lines) as [p|e|c] eqn:Hfeed; simpl; [| done | done].
  intros [= <-].
  assert (Hinv : parserInv initial).
  { split; [constructor | by intros cur Hcur]. }
  apply (feed_inv lines initial p Hinv) in Hfeed.
  apply pushCurrent_inv in Hfeed as [Hreqs _].
  eapply Forall_impl; [exact Hreqs |].
  intros r Hr. split; [done |]. by apply wellFormed_generates.
Qed.

Lemma parsed_records_are_well_formed_witness :
  Forall
    (fun r =>
       wellFormed r
       /\ forall index seq,
            (exists name, fileName r index (method r) (url r) = Ok name)
            /\ exists text, generateBruFile r seq = Ok text)
    [setStatusCode
       (setMethodUrl (newRequest (Some (js "Tags"))) (js "GET") (js "{{host}}/api/tags"))
       200].
Proof.
  apply (parsed_records_are_well_formed
           [js "# Tags"; js "GET {{host}}/api/tags"; js "HTTP 200"]).
  vm_compute. reflexivity.
Defined.

Lemma step_assert_line (p : Parser) (cur : Request) (line : str) :
  state p = ASSERTS -> current p = Some cur -> isAssertLine line = true ->
  step p line = Ok (setCurrent p (Some (pushAssert cur (trim line)))).
Proof.
  intros Hstate Hcur Hline. unfold isAssertLine, test in Hline. cbv zeta in Hline.
  repeat (apply andb_true_iff in Hline as [Hline ?]).
  unfold step, onCurrent. cbv zeta. rewrite Hstate, Hcur. simpl.
  destruct (str_eqb (trim line) []); [done |].
  destruct (startsWith (trim line) (js "#")); [done |].
  destruct (matchAll reMethod (trim line)); [done |].
  destruct (matchAll reStatus (trim line)); [done |].
  destruct (str_eqb (trim line) (js "[Asserts]")); [done |].
  destruct (str_eqb (trim line) (js "[Captures]")); [done |].
  simpl. by rewrite andb_false_r.
Qed.

(** Under [[Asserts]] every line that is not blank, a comment, a method
    line, a status line or a section header is stored, trimmed, at the end
    of the assertions of the open record: none is dropped, the order is the
    order of the file, and nothing else of the record changes. *)
Theorem assert_lines_are_kept_in_order (lines : list str) :
  forall (p : Parser) (cur : Request),
    state p = ASSERTS -> current p = Some cur ->
    forallb isAssertLine lines = true ->
    exists cur',
      feed p lines = Ok (setCurrent p (Some cur'))
      /\ asserts cur' = asserts cur ++ map trim lines
      /\ sameId cur cur' /\ headers cur' = headers cur /\ body cur' = body cur
      /\ statusCode cur' = statusCode cur /\ captures cur' = captures cur.
Proof.
  induction lines as [|line lines IH]; intros p cur Hstate Hcur Hlines.
  - exists cur. simpl. rewrite app_nil_r. destruct p; simpl in *; subst.
    by repeat split.
  - simpl in Hlines. apply andb_true_iff in Hlines as [Hline Hlines].
    simpl. rewrite (step_assert_line p cur line Hstate Hcur Hline). simpl.
    destruct (IH (setCurrent p (Some (pushAssert cur (trim line))))
                (pushAssert cur (trim line)) Hstate eq_refl Hlines)
      as (cur' & -> & Ha & Hid & Hh & Hb & Hs & Hc).
    exists cur'. split; [reflexivity |]. destruct Hid as (Hi1 & Hi2 & Hi3).
    simpl in *. rewrite Ha, <- app_assoc. by repeat split.
Qed.

Lemma assert_lines_are_kept_in_order_witness :
  exists cur',
    feed (setState afterMethodLine ASSERTS)
      [js "  jsonpath '$.a' == 1  "; js "status == 200"]
    = Ok (setCurrent (setState afterMethodLine ASSERTS) (Some cur'))
    /\ asserts cur'
       = asserts (setMethodUrl (newRequest None) (js "POST") (js "{{host}}/api/articles"))
         ++ map trim [js "  jsonpath '$.a' == 1  "; js "status == 200"]
    /\ sameId (setMethodUrl (newRequest None) (js "POST") (js "{{host}}/api/articles")) cur'
    /\ headers cur' = [] /\ body cur' = None
    /\ statusCode cur' = None /\ captures cur' = [].
Proof.
  apply (assert_lines_are_kept_in_order
           [js "  jsonpath '$.a' == 1  "; js "status == 200"]
           (setState afterMethodLine ASSERTS)
           (setMethodUrl (newRequest None) (js "POST") (js "{{host}}/api/articles")));
    vm_compute; reflexivity.
Defined.

(** ** Names *)

Lemma dashRuns_wellDashed (s : str) (inRun : bool) :
  wellDashed inRun (dashRuns inRun s) = true.
Proof.
  revert inRun. induction s as [|c s IH]; intros inRun; simpl; [done |].
  unfold notSlugChar. destruct (isLower c || isDigit c) eqn:Hc; simpl.
  - assert ((c =? 45) = false) as ->.
    { apply N.eqb_neq. intros ->. by vm_compute in Hc. }
    rewrite Hc. apply IH.
  - destruct inRun; simpl; [apply IH |]. apply IH.
Qed.

Lemma wellDashed_weaken (s : str) : wellDashed true s = true -> wellDashed false s = true.
Proof. destruct s as [|c s]; simpl; [done |]. by destruct (c =? 45). Qed.

Lemma wellDashed_snoc (s : str) (b : bool) :
  wellDashed b (s ++ [45]) = true ->
  wellDashed b s = true /\ last s <> Some 45 /\ (s = [] -> b = false).
Proof.
  revert b. induction s as [|c s IH]; intros b; simpl.
  - destruct b; simpl; [done |]. by repeat split.
  - destruct (c =? 45) eqn:Hc.
    + intros [Hb Hs]%andb_true_iff. destruct (IH true Hs) as (Hs' & Hlast & Hnil).
      rewrite Hb, Hs'. split; [done |]. split; [| done].
      destruct s as [|c' s]; [by specialize (Hnil eq_refl) |]. exact Hlast.
    + intros [Hok Hs]%andb_true_iff. destruct (IH false Hs) as (Hs' & Hlast & _).
      rewrite Hok, Hs'. split; [done |]. split; [| done].
      destruct s as [|c' s]; [| exact Hlast].
      simpl. intros [= ->]. by vm_compute in Hc.
Qed.

Lemma trimDashes_clean (s : str) :
  wellDashed false s = true -> cleanSlug (trimDashes s).
Proof.
  intros Hs. unfold trimDashes.
  set (s1 := match s with 45 :: s' => s' | _ => s end).
  assert (Hs1 : wellDashed true s1 = true).
  { unfold s1. destruct s as [|c s]; [done |].
    simpl in Hs. destruct (c =? 45) eqn:Hc.
    - apply N.eqb_eq in Hc as ->. by simpl in Hs.
    - assert (match c :: s with 45 :: s' => s' | _ => c :: s end = c :: s) as ->.
      { destruct c as [|c]; [done |].
        repeat (destruct c as [c|c|]; try done). }
      simpl. by rewrite Hc. }
  clearbody s1.
  destruct (rev s1) as [|c r] eqn:Hrev.
  - apply (f_equal (@rev N)) in Hrev. rewrite rev_involutive in Hrev. by subst s1.
  - assert (Hs1eq : s1 = rev r ++ [c]).
    { apply (f_equal (@rev N)) in Hrev. by rewrite rev_involutive in Hrev. }
    destruct (decide (c = 45)) as [-> | Hc].
    + rewrite Hs1eq in Hs1. apply wellDashed_snoc in Hs1 as (H1 & H2 & _).
      by split.
    + assert (match c with 45 => rev r | _ => s1 end = s1) as ->.
      { destruct c as [|c]; [done |].
        repeat (destruct c as [c|c|]; try done). }
      split; [done |]. rewrite Hs1eq, last_snoc. congruence.
Qed.

Lemma slugChar_cases (c : N) :
  (isLower c || isDigit c) = true ->
  (c =? 45) = false /\ lowerUnit c = [c].
Proof.
  intros Hc. unfold lowerUnit, isLower, isDigit, isUpper in *.
  destruct (c =? 45) eqn:H45; [apply N.eqb_eq in H45 as ->; by vm_compute in Hc |].
  split; [done |].
  destruct ((65 <=? c) && (c <=? 90)) eqn:Hup.
  { apply andb_true_iff in Hup as [?%N.leb_le ?%N.leb_le].
    apply orb_true_iff in Hc as [[?%N.leb_le ?%N.leb_le]%andb_true_iff
                               | [?%N.leb_le ?%N.leb_le]%andb_true_iff]; lia. }
  destruct (c =? 8490) eqn:H1.
  { apply N.eqb_eq in H1 as ->. by vm_compute in Hc. }
  destruct (c =? 304) eqn:H2; [| done].
  apply N.eqb_eq in H2 as ->. by vm_compute in Hc.
Qed.

Lemma wellDashed_lower (s : str) (b : bool) :
  wellDashed b s = true -> toLowerCase s = s.
Proof.
  unfold toLowerCase. revert b. induction s as [|c s IH]; intros b; simpl; [done |].
  destruct (c =? 45) eqn:Hc.
  - apply N.eqb_eq in Hc as ->. intros [_ Hs]%andb_true_iff.
    change (lowerUnit 45) with [45]. simpl. f_equal. by apply (IH true).
  - intros [Hok Hs]%andb_true_iff. destruct (slugChar_cases c Hok) as [_ ->].
    simpl. f_equal. by apply (IH false).
Qed.

Lemma wellDashed_dashRuns (s : str) (b : bool) :
  wellDashed b s = true -> dashRuns b s = s.
Proof.
  revert b. induction s as [|c s IH]; intros b; simpl; [done |].
  destruct (c =? 45) eqn:Hc.
  - apply N.eqb_eq in Hc as ->. intros [Hb Hs]%andb_true_iff.
    destruct b; [done |]. change (notSlugChar 45) with true. simpl.
    f_equal. by apply IH.
  - intros [Hok Hs]%andb_true_iff. unfold notSlugChar. rewrite Hok. simpl.
    f_equal. by apply IH.
Qed.

Lemma cleanSlug_trimDashes (s : str) : cleanSlug s -> trimDashes s = s.
Proof.
  intros [Hs Hlast]. unfold trimDashes.
  assert (match s with 45 :: s' => s' | _ => s end = s) as ->.
  { destruct s as [|c s]; [done |]. simpl in Hs.
    destruct (c =? 45) eqn:Hc; [done |].
    destruct c as [|c]; [done |].
    repeat (destruct c as [c|c|]; try done). }
  destruct (rev s) as [|c r] eqn:Hrev; [done |].
  assert (Hs1eq : s = rev r ++ [c]).
  { apply (f_equal (@rev N)) in Hrev. by rewrite rev_involutive in Hrev. }
  rewrite Hs1eq, last_snoc in Hlast.
  destruct c as [|c]; [done |].
  repeat (destruct c as [c|c|]; try done).
Qed.

Lemma slugify_fixes_clean (s : str) : cleanSlug s -> slugify s = s.
Proof.
  intros Hs. unfold slugify.
  rewrite (wellDashed_lower s true), wellDashed_dashRuns by apply Hs || apply wellDashed_weaken, Hs.
  by apply cleanSlug_trimDashes.
Qed.

(** [slugify] returns a clean slug whatever it is given: lower-case
    letters, digits and single dashes, with no dash at either end. *)
Theorem slugify_clean (s : str) : cleanSlug (slugify s).
Proof.
  unfold slugify. apply trimDashes_clean, dashRuns_wellDashed.
Qed.

(** The slugs are exactly the clean strings: [slugify] returns nothing else,
    and it returns every clean string, namely for that string itself. *)
Theorem slugify_image (s : str) : cleanSlug s <-> exists t, slugify t = s.
Proof.
  split.
  - intros Hs. exists s. by apply slugify_fixes_clean.
  - intros [t <-]. apply trimDashes_clean, dashRuns_wellDashed.
Qed.

(** Slugifying twice is slugifying once. *)
Theorem slugify_idempotent (s : str) : slugify (slugify s) = slugify s.
Proof.
  apply slugify_fixes_clean, trimDashes_clean, dashRuns_wellDashed.
Qed.

(** ** Decimal numerals *)

Lemma numberToString_digitsOf (n : N) : numberToString n = digitsOf (N.to_uint n).
Proof.
  unfold numberToString. induction (N.to_uint n) as [|d IH|d IH|d IH|d IH|d IH|d IH|d IH|d IH|d IH|d IH];
    [done | ..]; simpl; rewrite <- IH; reflexivity.
Qed.

Lemma digitsOf_digits (d : Decimal.uint) : forallb isDigit (digitsOf d) = true.
Proof. induction d; simpl; done. Qed.

Lemma numberToString_digits (n : N) : forallb isDigit (numberToString n) = true.
Proof. rewrite numberToString_digitsOf. apply digitsOf_digits. Qed.

Lemma parse_digits_acc (d : Decimal.uint) (acc : positive) :
  fold_left (fun acc c => 10 * acc + (c - 48)) (digitsOf d) (N.pos acc)
  = N.pos (Pos.of_uint_acc d acc).
Proof.
  revert acc. induction d; intros acc; simpl; [done | ..];
    match goal with
    | |- fold_left ?f _ ?a = N.pos (Pos.of_uint_acc _ ?b) =>
        replace a with (N.pos b) by lia
    end; apply IHd.
Qed.

Lemma parse_digits (d : Decimal.uint) : parseInt (digitsOf d) = N.of_uint d.
Proof.
  unfold parseInt, N.of_uint.
  induction d; simpl; [done | exact IHd | ..];
    match goal with
    | |- fold_left ?f _ ?a = _ =>
        let v := eval vm_compute in a in change a with v
    end; apply parse_digits_acc.
Qed.

Lemma parseInt_numberToString (n : N) : parseInt (numberToString n) = n.
Proof.
  rewrite numberToString_digitsOf, parse_digits. apply DecimalN.Unsigned.of_to.
Qed.

Lemma numberToString_nonempty (n : N) : numberToString n <> [].
Proof.
  rewrite numberToString_digitsOf. destruct n as [|p]; [done |].
  pose proof (DecimalPos.Unsigned.to_uint_nonnil p) as Hp.
  simpl. destruct (Pos.to_uint p); done.
Qed.

Lemma parseInt_padStart2 (s : str) :
  forallb isDigit s = true -> parseInt (padStart2 s) = parseInt s.
Proof.
  destruct s as [|c [|c' s]]; try done.
Qed.

Lemma digits_before_dash (a b x y : str) :
  forallb isDigit a = true -> forallb isDigit b = true ->
  a ++ 45 :: x = b ++ 45 :: y -> a = b.
Proof.
  revert b. induction a as [|c a IH]; intros [|d b] Ha Hb Heq; simpl in *.
  - done.
  - injection Heq as <- _. by vm_compute in Hb.
  - injection Heq as -> _. by vm_compute in Ha.
  - injection Heq as -> Heq. f_equal.
    apply andb_true_iff in Ha as [_ Ha]. apply andb_true_iff in Hb as [_ Hb].
    by apply IH.
Qed.

Lemma padStart2_digits (s : str) :
  forallb isDigit s = true -> forallb isDigit (padStart2 s) = true.
Proof. destruct s as [|c [|c' s]]; try done. Qed.

Lemma fileName_shape (request : Request) (index : N) (m u : option str) (name : str) :
  fileName request index m u = Ok name ->
  exists slug, cleanSlug slug /\
    name = padStart2 (numberToString (index + 1)) ++ js "-" ++ slug ++ js ".bru".
Proof.
  unfold fileName. destruct (truthy (comment request)).
  - simpl. intros [= <-]. eexists. split; [apply slugify_clean | done].
  - destruct u as [u|]; simpl; [| done].
    intros [= <-]. eexists. split; [apply slugify_clean | done].
Qed.

(** Within one source file the request files get different names: the name
    starts with the sequence number, so two requests at different positions
    never share a file, whatever their comments, verbs and addresses. *)
Theorem fileName_distinct_by_index (r1 r2 : Request) (i j : N)
    (m1 u1 m2 u2 : option str) (name1 name2 : str) :
  fileName r1 i m1 u1 = Ok name1 ->
  fileName r2 j m2 u2 = Ok name2 ->
  i <> j -> name1 <> name2.
Proof.
  intros (s1 & _ & ->)%fileName_shape (s2 & _ & ->)%fileName_shape Hij Heq.
  apply Hij. change (js "-") with [45] in Heq. simpl in Heq.
  apply digits_before_dash in Heq;
    [| apply padStart2_digits, numberToString_digits ..].
  apply (f_equal parseInt) in Heq.
  rewrite !parseInt_padStart2, !parseInt_numberToString in Heq
    by apply numberToString_digits.
  lia.
Qed.

Lemma fileName_distinct_by_index_witness :
  js "01-tags.bru" <> js "10-tags.bru".
Proof.
  apply (fileName_distinct_by_index exampleRequest exampleRequest 0 9
           (method exampleRequest) (url exampleRequest)
           (method exampleRequest) (url exampleRequest));
    [vm_compute; reflexivity .. | lia].
Defined.

(** ** Paths into the response body *)

Lemma lastIndexOfAt_cases (s : str) (c : N) (i found : Z) :
  ((c ∉ s) /\ lastIndexOfAt s c i found = found)
  \/ (exists a b, s = a ++ c :: b /\ (c ∉ b) /\ lastIndexOfAt s c i found = (i + len a)%Z).
Proof.
  revert i found. induction s as [|d s IH]; intros i found; simpl.
  - left. split; [apply not_elem_of_nil | done].
  - destruct (IH (i + 1)%Z (if d =? c then i else found)) as [[Hc ->] | (a & b & -> & Hb & ->)].
    + destruct (d =? c) eqn:Hd.
      * apply N.eqb_eq in Hd as ->. right. exists [], s.
        repeat split; [done |]. unfold len. simpl. lia.
      * apply N.eqb_neq in Hd. left. split; [| done].
        rewrite not_elem_of_cons. split; [congruence | done].
    + right. exists (d :: a), b. repeat split; [done |].
      unfold len. simpl. lia.
Qed.

Lemma slice_before (a b : str) (c : N) : slice (a ++ c :: b) 0 (len a) = a.
Proof.
  unfold slice, len. rewrite length_app.
  assert ((Z.of_nat (length a) <? 0)%Z = false) as -> by (apply Z.ltb_ge; lia).
  change (0 <? 0)%Z with false. cbv beta iota zeta.
  rewrite !Z.min_l by lia.
  rewrite Z.sub_0_r, Nat2Z.id. change (Z.to_nat 0) with 0%nat.
  rewrite drop_0. by rewrite take_app_length.
Qed.

Lemma sliceFrom_after (a b : str) (c : N) : sliceFrom (a ++ c :: b) (len a + 1) = b.
Proof.
  unfold sliceFrom, slice, len. rewrite length_app.
  change (length (c :: b)) with (S (length b)).
  assert ((Z.of_nat (length a) + 1 <? 0)%Z = false) as -> by (apply Z.ltb_ge; lia).
  assert ((Z.of_nat (length a + S (length b)) <? 0)%Z = false) as -> by (apply Z.ltb_ge; lia).
  cbv beta iota zeta.
  rewrite Z.min_l, Z.min_l by lia.
  replace (Z.to_nat (Z.of_nat (length a) + 1)) with (length a + 1)%nat by lia.
  replace (Z.to_nat (Z.of_nat (length a + S (length b)) - (Z.of_nat (length a) + 1)))
    with (length b) by lia.
  rewrite <- drop_drop, drop_app_length. simpl. by rewrite take_ge.
Qed.

(** The two halves [jsonpathToPropertyCheck] returns are the path
    [jsonpathToJs] returns, cut at its last dot: joined by a dot they give
    that path back, and the property name holds no dot. *)
Theorem jsonpathToPropertyCheck_recombines (jp : str) :
  parent (jsonpathToPropertyCheck jp) ++ js "." ++ prop (jsonpathToPropertyCheck jp)
  = jsonpathToJs jp
  /\ 46 ∉ prop (jsonpathToPropertyCheck jp).
Proof.
  unfold jsonpathToPropertyCheck, jsonpathToJs, lastIndexOf.
  destruct (lastIndexOfAt_cases (stripDollar jp) 46 0 (-1))
    as [[Hc ->] | (a & b & Hs & Hb & ->)]; rewrite ?Z.add_0_l.
  - done.
  - assert ((len a =? -1)%Z = false) as ->
      by (apply Z.eqb_neq; unfold len; lia).
    rewrite Hs, slice_before, sliceFrom_after. cbn [parent prop]. split; [| done].
    rewrite <- app_assoc. f_equal.
Qed.

(** ** The body block *)

Lemma split_no_sep (sep : N) (s : str) : Forall (fun l => sep ∉ l) (split sep s).
Proof.
  induction s as [|c s IH]; simpl.
  - constructor; [apply not_elem_of_nil | constructor].
  - destruct (c =? sep) eqn:Hc.
    + constructor; [apply not_elem_of_nil | done].
    + apply N.eqb_neq in Hc. destruct (split sep s) as [|l ls].
      * constructor; [| constructor].
        rewrite not_elem_of_cons. split; [congruence | apply not_elem_of_nil].
      * inversion IH as [|? ? Hl Hls]; subst. constructor; [| done].
        rewrite not_elem_of_cons. split; [congruence | done].
Qed.

Lemma dropWhile_snoc (f : N -> bool) (s : str) (c : N) :
  f c = false -> dropWhile f (s ++ [c]) <> [].
Proof.
  intros Hc. induction s as [|d s IH]; simpl.
  - by rewrite Hc.
  - by destruct (f d).
Qed.

Lemma trim_starts_visible (c : N) (l : str) : isSpace c = false -> trim (c :: l) <> [].
Proof.
  intros Hc. unfold trim, trimEnd, trimStart. simpl. rewrite Hc.
  intros Hrev. apply (f_equal (@rev N)) in Hrev. rewrite rev_involutive in Hrev.
  simpl in Hrev.
  destruct (rev l) as [|d r] eqn:Hl; simpl in Hrev.
  - by rewrite Hc in Hrev.
  - destruct (isSpace d); [| done]. by apply dropWhile_snoc in Hrev.
Qed.

Lemma join_middle (sep : str) (l1 l2 : list str) (x : str) :
  exists before after, join sep (l1 ++ x :: l2) = before ++ x ++ after.
Proof.
  induction l1 as [|y l1 (before & after & IH)].
  - exists [].
    destruct l2 as [|z l2]; [exists []; simpl; by rewrite app_nil_r |].
    by exists (sep ++ join sep (z :: l2)).
  - exists (y ++ sep ++ before), after.
    change (join sep ((y :: l1) ++ x :: l2)) with (join sep (y :: (l1 ++ x :: l2))).
    destruct (l1 ++ x :: l2) as [|z l] eqn:Hl; [by destruct l1 |].
    change (join sep (y :: z :: l)) with (y ++ sep ++ join sep (z :: l)).
    rewrite IH. by rewrite <- !app_assoc.
Qed.

Lemma Ok_inj {A} (a b : A) : Ok a = Ok b -> a = b.
Proof. by intros [= ->]. Qed.

(** The body block of a generated file holds the body of the record line by
    line, and none of its lines starts with a closing brace: a line with
    anything visible on it is moved two columns in, and a line left as it
    is holds white space only. *)
Theorem body_block_keeps_braces_off_column_one (r : Request) (seq : N) (b text : str) :
  body r = Some b ->
  generateBruFile r seq = Ok text ->
  (exists before after,
     text = before ++ (js "body:json {" ++ nl ++ join nl (bodyBlockLines b) ++ nl ++ js "}")
            ++ after)
  /\ Forall (fun l => (10 ∉ l) /\ head l <> Some 125) (bodyBlockLines b)
  /\ length (bodyBlockLines b) = length (split 10 b).
Proof.
  intros Hb Hgen. split; [| split].
  - unfold generateBruFile in Hgen. rewrite Hb in Hgen.
    unfold mbind, outcome_bind in Hgen.
    destruct (if truthy (comment r) then _ else _) as [name|e|c];
      cbn [bind] in Hgen; [| done | done].
    destruct (deref (method r)) as [m|e|c]; cbn [bind] in Hgen; [| done | done].
    apply Ok_inj in Hgen. subst text.
    match goal with
    | |- context [join (nl ++ nl) (?pre ++ ?hs ++ [?blk] ++ ?rest)] =>
        destruct (join_middle (nl ++ nl) (pre ++ hs) rest blk) as (before & after & Heq);
        change (pre ++ hs ++ [blk] ++ rest) with (pre ++ hs ++ blk :: rest);
        rewrite (app_assoc pre hs (blk :: rest)), Heq
    end.
    exists before, (after ++ nl). by rewrite <- !app_assoc.
  - unfold bodyBlockLines. apply Forall_map.
    eapply Forall_impl; [apply (split_no_sep 10 b) |].
    intros l Hl. simpl. destruct (trim l) as [|t ts] eqn:Htrim.
    + split; [done |]. destruct l as [|c l]; [done |]. simpl. intros [= ->].
      by apply (trim_starts_visible 125 l).
    + split; [| done]. unfold indent. change (js "  ") with [32; 32]. simpl.
      rewrite !not_elem_of_cons. done.
  - unfold bodyBlockLines. apply length_map.
Qed.

Lemma body_block_keeps_braces_off_column_one_witness :
  (exists before after,
     js "meta {" ++ nl ++ js "  name: Tags" ++ nl ++ js "  type: http" ++ nl
     ++ js "  seq: 1" ++ nl ++ js "}" ++ nl ++ nl
     ++ js "get {" ++ nl ++ js "  url: {{host}}/api/tags" ++ nl ++ js "  body: json" ++ nl
     ++ js "  auth: none" ++ nl ++ js "}" ++ nl ++ nl
     ++ js "body:json {" ++ nl ++ js "  {" ++ nl ++ js "  }" ++ nl ++ js "}" ++ nl ++ nl
     ++ js "assert {" ++ nl ++ js "  res.status: eq 200" ++ nl ++ js "}" ++ nl
     = before ++ (js "body:json {" ++ nl
                  ++ join nl (bodyBlockLines (js "{" ++ nl ++ js "}")) ++ nl ++ js "}")
       ++ after)
  /\ Forall (fun l => (10 ∉ l) /\ head l <> Some 125)
       (bodyBlockLines (js "{" ++ nl ++ js "}"))
  /\ length (bodyBlockLines (js "{" ++ nl ++ js "}"))
     = length (split 10 (js "{" ++ nl ++ js "}")).
Proof.
  apply (body_block_keeps_braces_off_column_one
           (setBody exampleRequest (js "{" ++ nl ++ js "}")) 1);
    vm_compute; reflexivity.
Defined.

(** ** The verdict of check mode *)

Lemma In_insertSorted_rev (x y : str) (l : list str) :
  x = y \/ In x l -> In x (insertSorted y l).
Proof.
  induction l as [|z l IH]; simpl.
  - intros [-> | []]. by left.
  - destruct (str_leb y z); simpl; [intros [-> | H]; auto |].
    intros [-> | [-> | H]]; auto.
Qed.

Lemma In_sort_rev (x : str) (l : list str) : In x l -> In x (sort l).
Proof.
  induction l as [|y l IH]; simpl; [done |].
  intros [-> | H]; apply In_insertSorted_rev; auto.
Qed.

Lemma flat_map_nil {A B} (f : A -> list B) (l : list A) :
  flat_map f l = [] <-> forall x, In x l -> f x = [].
Proof.
  induction l as [|a l IH]; simpl; [by split |].
  split.
  - intros [Ha Hl]%app_eq_nil x [<- | Hx]; [done |]. by apply IH.
  - intros Hall. rewrite (Hall a) by (by left). simpl. apply IH. auto.
Qed.

Lemma diffLine_nil (expected actual : gmap str str) (key : str) :
  key ∈ dom expected ∪ dom actual ->
  diffLine expected actual key = [] <-> expected !! key = actual !! key.
Proof.
  intros Hkey. unfold diffLine, hasKey. split.
  - destruct (bool_decide (is_Some (actual !! key)) || _); simpl; [| done].
    destruct (bool_decide (is_Some (expected !! key)) || _); simpl; [| done].
    destruct (bool_decide (expected !! key = actual !! key)) eqn:Heq; simpl; [| done].
    by apply bool_decide_eq_true in Heq.
  - intros Heq.
    assert (Hboth : is_Some (expected !! key) /\ is_Some (actual !! key)).
    { apply elem_of_union in Hkey as [He%elem_of_dom | Ha%elem_of_dom].
      - split; [done | by rewrite <- Heq].
      - split; [by rewrite Heq | done]. }
    destruct Hboth as [He Ha].
    rewrite (bool_decide_eq_true_2 _ He), (bool_decide_eq_true_2 _ Ha),
      (bool_decide_eq_true_2 _ Heq). done.
Qed.

Lemma diffs_nil (expected actual : gmap str str) :
  flat_map (diffLine expected actual) (sort (elements (dom expected ∪ dom actual))) = []
  <-> expected = actual.
Proof.
  rewrite flat_map_nil. split.
  - intros Hall. apply map_eq. intros key.
    destruct (decide (key ∈ dom expected ∪ dom actual)) as [Hin | Hout].
    + apply diffLine_nil; [done |]. apply Hall, In_sort_rev, list_elem_of_In.
      by apply elem_of_elements.
    + apply not_elem_of_union in Hout as [He%not_elem_of_dom Ha%not_elem_of_dom].
      by rewrite He, Ha.
  - intros <- key Hkey. apply In_sort, list_elem_of_In, elem_of_elements in Hkey.
    by apply diffLine_nil.
Qed.

(** The verdict of check mode is an equality test: once the regeneration has
    gone through and both trees have been collected, check mode returns,
    with the scratch directory removed, exactly when the two maps from
    relative paths to contents are equal; when they differ in any entry it
    ends the process with code 1 and leaves the file system as the
    regeneration left it. *)
Theorem checkMode_verdict (ROOT tmp : path) (now : N) (fs s1 : node)
    (expected actual : gmap str str) :
  generateCollection ROOT (tempDir tmp now) fs = (s1, Ok ()) ->
  collectFiles (tempDir tmp now) [] s1 = (s1, Ok expected) ->
  collectFiles (BRUNO_DIR ROOT) [] s1 = (s1, Ok actual) ->
  checkMode ROOT tmp now fs
  = if decide (expected = actual)
    then (removeAt (tempDir tmp now) s1, Ok ())
    else (s1, Exit 1).
Proof.
  intros Hgen Hexp Hact. unfold checkMode, tryFinally.
  unfold mbind at 1. unfold io_bind at 1. rewrite Hgen.
  unfold mbind at 1. unfold io_bind at 1. rewrite Hexp.
  unfold mbind at 1. unfold io_bind at 1. rewrite Hact.
  pose proof (diffs_nil expected actual) as Hnil.
  destruct (flat_map (diffLine expected actual) _) as [|line diffs].
  - rewrite decide_True by (by apply Hnil). reflexivity.
  - rewrite decide_False; [reflexivity |]. intros Heq. by apply Hnil in Heq.
Qed.

Lemma checkMode_verdict_witness :
  checkMode exampleRoot exampleTmp exampleNow exampleFs
  = ((generateCollection exampleRoot (tempDir exampleTmp exampleNow) exampleFs).1, Exit 1).
Proof.
  eapply eq_trans.
  - apply (checkMode_verdict exampleRoot exampleTmp exampleNow exampleFs);
      vm_compute; reflexivity.
  - vm_compute. reflexivity.
Defined.

(** ** What a run leaves alone *)

Lemma prefix_snoc_same (T : path) (a b : str) :
  T ++ [a] `prefix_of` T ++ [b] -> a = b.
Proof.
  intros Hpre. apply prefix_app_inv in Hpre.
  by apply prefix_cons_inv_1 in Hpre.
Qed.

(** Neither mode writes to the source directory: whatever the run ends in,
    the tree at [HURL_DIR] is afterwards what it was before.  (In check
    mode this needs the scratch directory to be neither inside the source
    directory nor above it.) *)
Theorem source_directory_is_never_written (ROOT tmp : path) (now : N)
    (CHECK_MODE : bool) (fs : node) :
  (CHECK_MODE = true ->
   ~ HURL_DIR ROOT `prefix_of` tempDir tmp now
   /\ ~ tempDir tmp now `prefix_of` HURL_DIR ROOT) ->
  lookupPath (HURL_DIR ROOT) (main ROOT tmp now CHECK_MODE fs).1
  = lookupPath (HURL_DIR ROOT) fs.
Proof.
  intros Hscratch. destruct CHECK_MODE.
  - destruct (Hscratch eq_refl) as [Hinside Habove]. unfold main.
    assert (Hgen : lookupPath (HURL_DIR ROOT)
                     (generateCollection ROOT (tempDir tmp now) fs).1
                   = lookupPath (HURL_DIR ROOT) fs).
    { rewrite tempDir_eq in *.
      apply (Writes_frame tmp (js "bruno-check-" ++ numberToString now)
               (HURL_DIR ROOT)); [done | done | |].
      - intros f Hbru Heq. rewrite HURL_DIR_eq in Heq.
        apply app_inj_tail in Heq as [_ <-]. by vm_compute in Hbru.
      - apply Writes_generateCollection. }
    pose proof (checkMode_state ROOT tmp now fs) as Hstate. cbv zeta in Hstate.
    destruct (checkMode ROOT tmp now fs).2; rewrite Hstate; try done;
      by rewrite removeAt_frame.
  - rewrite main_generate.
    assert (Hrm : lookupPath (HURL_DIR ROOT) (removeAt (BRUNO_DIR ROOT) fs)
                  = lookupPath (HURL_DIR ROOT) fs).
    { apply removeAt_frame; rewrite HURL_DIR_eq, BRUNO_DIR_eq;
        intros Hpre; by apply prefix_snoc_same in Hpre. }
    rewrite <- Hrm. set (u := removeAt (BRUNO_DIR ROOT) fs).
    assert (Hgen : lookupPath (HURL_DIR ROOT)
                     (generateCollection ROOT (BRUNO_DIR ROOT) u).1
                   = lookupPath (HURL_DIR ROOT) u).
    { rewrite BRUNO_DIR_eq.
      apply (Writes_frame ROOT (js "bruno") (HURL_DIR ROOT)).
      - rewrite HURL_DIR_eq. intros Hpre. by apply prefix_snoc_same in Hpre.
      - rewrite HURL_DIR_eq. intros Hpre. by apply prefix_snoc_same in Hpre.
      - intros f Hbru Heq. rewrite HURL_DIR_eq in Heq.
        apply app_inj_tail in Heq as [_ <-]. by vm_compute in Hbru.
      - apply Writes_generateCollection. }
    unfold mbind at 1. unfold io_bind at 1.
    destruct (generateCollection ROOT (BRUNO_DIR ROOT) u) as [s1 [[]|e|c]];
      simpl in Hgen; [| done | done].
    unfold mbind at 1. unfold io_bind at 1.
    pose proof (collectFiles_state (BRUNO_DIR ROOT) [] s1) as Hstate.
    destruct (collectFiles (BRUNO_DIR ROOT) [] s1) as [s2 [files|e|c]];
      simpl in Hstate; subst s2; done.
Qed.

Lemma source_directory_is_never_written_witness :
  lookupPath (HURL_DIR exampleRoot)
    (main exampleRoot exampleTmp exampleNow true exampleFs).1
  = lookupPath (HURL_DIR exampleRoot) exampleFs.
Proof.
  apply (source_directory_is_never_written exampleRoot exampleTmp exampleNow true exampleFs).
  intros _. split; intros [k Hk]; vm_compute in Hk; discriminate Hk.
Defined.

(** The [finally] of check mode: on every way out but the exit of the
    process, by return or by an exception, the scratch directory is gone
    afterwards. *)
Theorem scratch_directory_is_removed_unless_exit (ROOT tmp : path) (now : N) (fs : node) :
  (forall code, (checkMode ROOT tmp now fs).2 <> Exit code) ->
  lookupPath (tempDir tmp now) (checkMode ROOT tmp now fs).1 = None.
Proof.
  intros Hout.
  pose proof (checkMode_state ROOT tmp now fs) as Hstate. cbv zeta in Hstate.
  destruct (checkMode ROOT tmp now fs).2 as [[]|e|code];
    [| | by destruct (Hout code)]; rewrite Hstate;
    apply removeAt_gone; rewrite tempDir_eq; by destruct tmp.
Qed.

Lemma scratch_directory_is_removed_unless_exit_witness :
  lookupPath (tempDir exampleTmp exampleNow)
    (checkMode exampleRoot exampleTmp exampleNow (Dir ∅)).1 = None.
Proof.
  apply (scratch_directory_is_removed_unless_exit exampleRoot exampleTmp exampleNow (Dir ∅)).
  intros code. vm_compute. discriminate.
Defined.

(** ** Matching *)


(** A greedy star over a whole run, when the continuation takes what comes
    after the run. *)
Lemma star_stops (p : N -> bool) (a b : str) (caps : list str) (k : cont)
    (res : list str) :
  forallb p a = true -> (forall c b', b = c :: b' -> p c = false) ->
  k b caps = Some res ->
  star p (a ++ b) caps k = Some res.
Proof.
  intros Ha Hb Hk. induction a as [|c a IH]; simpl.
  - destruct b as [|c b']; simpl; [done |]. by rewrite (Hb c b' eq_refl).
  - simpl in Ha. apply andb_true_iff in Ha as [-> Ha]. by rewrite IH.
Qed.










(** ** The status line *)








(** ** Assertions on any path *)

Lemma reJsonpath_matches (jp pred : str) (c : N) :
  jp <> [] -> forallb notQuote jp = true ->
  isSpace c = false -> forallb isDot (c :: pred) = true ->
  matchAll reJsonpath (js "jsonpath '" ++ jp ++ js "' " ++ c :: pred)
  = Some [jp; c :: pred].
Proof.
  intros Hne Hjp Hc Hpred. destruct jp as [|x jp]; [done |].
  simpl in Hjp. apply andb_true_iff in Hjp as [Hx Hjp].
  simpl in Hpred. apply andb_true_iff in Hpred as [Hcdot Hpred].
  unfold matchAll, reJsonpath. cbn [exec].
  change (js "jsonpath '" ++ (x :: jp) ++ js "' " ++ c :: pred)
    with (js "jsonpath" ++ 32 :: 34 :: x :: jp ++ 34 :: 32 :: c :: pred).
  rewrite (proj2 (startsWith_app _ _)) by eauto. rewrite drop_app_length.
  change (isSpace 32) with true. cbv iota.
  apply (star_stops isSpace [] (34 :: x :: jp ++ 34 :: 32 :: c :: pred));
    [done | by intros ? ? [= <- _] |].
  cbn [exec]. change (startsWith (34 :: x :: jp ++ 34 :: 32 :: c :: pred) dq) with true.
  cbv iota. change (drop (length dq) (34 :: x :: jp ++ 34 :: 32 :: c :: pred))
    with (x :: jp ++ 34 :: 32 :: c :: pred).
  cbv beta iota. rewrite Hx.
  apply star_stops; [done | by intros ? ? [= <- _] |].
  cbn [exec]. change (startsWith (34 :: 32 :: c :: pred) dq) with true. cbv iota.
  change (drop (length dq) (34 :: 32 :: c :: pred)) with (32 :: c :: pred).
  cbv beta iota. change (isSpace 32) with true. cbv iota.
  apply (star_stops isSpace [] (c :: pred)); [done | by intros ? ? [= <- _] |].
  cbv beta iota. rewrite Hcdot.
  rewrite <- (app_nil_r pred) at 1.
  apply star_stops; [done | done |].
  set (closing := 34 :: 32 :: c :: pred).
  assert (Hfirst : take (length (x :: jp ++ closing) - length closing)
                     (x :: jp ++ closing) = x :: jp).
  { change (x :: jp ++ closing) with ((x :: jp) ++ closing).
    rewrite length_app.
    replace (length (x :: jp) + length closing - length closing)%nat
      with (length (x :: jp)) by lia.
    apply take_app_length. }
  rewrite Hfirst, Nat.sub_0_r, firstn_all. reflexivity.
Qed.

Lemma assertToJs_on_path (jp pred : str) (c : N) :
  jp <> [] -> forallb notQuote jp = true ->
  isSpace c = false -> forallb isDot (c :: pred) = true ->
  assertToJs (js "jsonpath '" ++ jp ++ js "' " ++ c :: pred)
  = Some (predicateToJs (js "jsonpath '" ++ jp ++ js "' " ++ c :: pred) jp
            (trim (c :: pred))).
Proof.
  intros Hne Hjp Hc Hpred. unfold assertToJs.
  by rewrite (reJsonpath_matches jp pred c Hne Hjp Hc Hpred).
Qed.

(** The five predicates without an operand are translated on every path:
    whatever the quoted path is (not empty, no double quote in it), the
    line gets the statement of its predicate over [jsonpathToJs] of that
    path, and [not exists] over the two halves of it. *)
Theorem fixed_predicates_translate_on_any_path (jp : str) :
  jp <> [] -> forallb notQuote jp = true ->
  assertToJs (js "jsonpath '" ++ jp ++ js "' isString")
  = Some (js "expect(typeof " ++ jsonpathToJs jp ++ js ").to.eql('string');")
  /\ assertToJs (js "jsonpath '" ++ jp ++ js "' isInteger")
     = Some (js "expect(Number.isInteger(" ++ jsonpathToJs jp ++ js ")).to.eql(true);")
  /\ assertToJs (js "jsonpath '" ++ jp ++ js "' isCollection")
     = Some (js "expect(Array.isArray(" ++ jsonpathToJs jp ++ js ")).to.eql(true);")
  /\ assertToJs (js "jsonpath '" ++ jp ++ js "' not isEmpty")
     = Some (js "expect(" ++ jsonpathToJs jp ++ js ").to.not.eql('');")
  /\ assertToJs (js "jsonpath '" ++ jp ++ js "' not exists")
     = Some (js "expect(" ++ parent (jsonpathToPropertyCheck jp)
             ++ js ").to.not.have.property('" ++ prop (jsonpathToPropertyCheck jp)
             ++ js "');").
Proof.
  intros Hne Hjp. repeat split.
  - change (js "' isString") with (js "' " ++ 105 :: js "sString").
    rewrite assertToJs_on_path by done. vm_compute. reflexivity.
  - change (js "' isInteger") with (js "' " ++ 105 :: js "sInteger").
    rewrite assertToJs_on_path by done. vm_compute. reflexivity.
  - change (js "' isCollection") with (js "' " ++ 105 :: js "sCollection").
    rewrite assertToJs_on_path by done. vm_compute. reflexivity.
  - change (js "' not isEmpty") with (js "' " ++ 110 :: js "ot isEmpty").
    rewrite assertToJs_on_path by done. vm_compute. reflexivity.
  - change (js "' not exists") with (js "' " ++ 110 :: js "ot exists").
    rewrite assertToJs_on_path by done. vm_compute. reflexivity.
Qed.

Lemma fixed_predicates_translate_on_any_path_witness :
  assertToJs (js "jsonpath '" ++ js "$.user.bio" ++ js "' isString")
  = Some (js "expect(typeof " ++ jsonpathToJs (js "$.user.bio") ++ js ").to.eql('string');").
Proof.
  apply (fixed_predicates_translate_on_any_path (js "$.user.bio")); [done | reflexivity].
Defined.

(** ** Check mode after a regeneration *)

Section TwoRuns.

Variables T T' : path.
Variables d d' : str.
Variable H : path.
Variable hurl : gmap str node.
Hypothesis H_not_above : ~ H `prefix_of` T ++ [d].
Hypothesis H_not_below : ~ T ++ [d] `prefix_of` H.
Hypothesis H_not_above' : ~ H `prefix_of` T' ++ [d'].
Hypothesis H_not_below' : ~ T' ++ [d'] `prefix_of` H.

Lemma below_output (r : path) : ~ H `prefix_of` T ++ d :: r.
Proof. rewrite (cons_middle d), app_assoc. by apply not_prefix_below. Qed.

Lemma below_output' (r : path) : ~ H `prefix_of` T' ++ d' :: r.
Proof. rewrite (cons_middle d'), app_assoc. by apply not_prefix_below. Qed.

(** A call that went through in one run goes through in the other, with
    the same result, and the two runs stay twins. *)
Lemma Sim_run {A} (m m' : io A) :
  Sim T T' d d' H hurl m m' ->
  forall s s' s1 a,
    twin T T' d d' H hurl s s' -> m s = (s1, Ok a) ->
    exists s1', m' s' = (s1', Ok a) /\ twin T T' d d' H hurl s1 s1'.
Proof.
  intros Hm.
  induction Hm as [A a|A o|A B m m' k k' Hm IHm Hk IHk|r|r text Hr| |x];
    intros s s' s1 res Htwin Hrun.
  - injection Hrun as <- <-. by exists s'.
  - unfold lift in *. injection Hrun as <- <-. by exists s'.
  - unfold mbind, io_bind in *.
    destruct (m s) as [s0 [a|e|c]] eqn:Hms; [| done | done].
    destruct (IHm s s' s0 a Htwin Hms) as (s0' & -> & Htwin0).
    destruct Htwin as (_ & Hgood & _).
    exact (IHk a s s0 Hgood Hms s0 s0' s1 res Htwin0 Hrun).
  - destruct Htwin as ((es & es' & Hs & Hs' & Hd) & Hh & Hh').
    unfold mkdirSync, update in *.
    pose proof (mkdirp_at T (d :: r) s (Dir es) Hs) as Hat.
    pose proof (mkdirp_at T' (d' :: r) s' (Dir es') Hs') as Hat'.
    simpl in Hat, Hat'. rewrite <- Hd in Hat'.
    destruct (mkdirp r (default (Dir ∅) (es !! d))) as [c|];
      [| by rewrite Hat in Hrun].
    destruct Hat as (n1 & Hn1 & Hlook), Hat' as (n1' & Hn1' & Hlook').
    rewrite Hn1 in Hrun. injection Hrun as <- <-. rewrite Hn1'.
    eexists. split; [done |]. split.
    + exists (<[d := c]> es), (<[d' := c]> es').
      split; [done |]. split; [done |]. by rewrite !lookup_insert_eq.
    + split.
      * rewrite <- Hh. apply (mkdirp_frame _ _ _ _ Hn1), below_output.
      * rewrite <- Hh'. apply (mkdirp_frame _ _ _ _ Hn1'), below_output'.
  - destruct Htwin as ((es & es' & Hs & Hs' & Hd) & Hh & Hh').
    unfold writeFileSync, update in *.
    pose proof (writeAt_at T (d :: r) text ltac:(done) s (Dir es) Hs) as Hat.
    pose proof (writeAt_at T' (d' :: r) text ltac:(done) s' (Dir es') Hs') as Hat'.
    destruct r as [|y r]; [done |]. rewrite writeAt_deeper in Hat, Hat'.
    rewrite <- Hd in Hat'.
    destruct (es !! d) as [c0|] eqn:Hesd; [| by rewrite Hat in Hrun].
    destruct (writeAt (y :: r) text c0) as [c|]; [| by rewrite Hat in Hrun].
    destruct Hat as (n1 & Hn1 & Hlook), Hat' as (n1' & Hn1' & Hlook').
    rewrite Hn1 in Hrun. injection Hrun as <- <-. rewrite Hn1'.
    eexists. split; [done |]. split.
    + exists (<[d := c]> es), (<[d' := c]> es').
      split; [done |]. split; [done |]. by rewrite !lookup_insert_eq.
    + split.
      * rewrite <- Hh. apply (writeAt_frame _ _ _ _ _ Hn1), below_output.
      * rewrite <- Hh'. apply (writeAt_frame _ _ _ _ _ Hn1'), below_output'.
  - destruct Htwin as (Hout & Hh & Hh').
    unfold readdirSync in *. rewrite Hh in Hrun. rewrite Hh'.
    injection Hrun as <- <-. exists s'. by repeat split.
  - destruct Htwin as (Hout & Hh & Hh').
    unfold readFileSync in *. rewrite lookupPath_app, Hh in Hrun.
    rewrite lookupPath_app, Hh'. simpl in *.
    destruct (hurl !! x) as [[|]|]; try done.
    injection Hrun as <- <-. exists s'. by repeat split.
Qed.

Lemma Sim_forEach {A} (l : list A) (f f' : A -> io unit) :
  (forall x, In x l -> Sim T T' d d' H hurl (f x) (f' x)) ->
  Sim T T' d d' H hurl (forEach l f) (forEach l f').
Proof.
  induction l as [|a l IH]; intros Hf; simpl.
  - apply S_ret.
  - apply S_bind; [apply Hf; by left |].
    intros _ _ _ _ _. apply IH. intros x Hx. apply Hf. by right.
Qed.

Lemma Sim_writeRequests (r : path) (requests_ : list Request) :
  forall i,
    Sim T T' d d' H hurl
      (writeRequests (T ++ d :: r) requests_ i)
      (writeRequests (T' ++ d' :: r) requests_ i).
Proof.
  induction requests_ as [|req rest IH]; intros i; simpl.
  - apply S_ret.
  - apply S_bind; [apply S_lift |]. intros name s s1 _ Hname.
    unfold lift in Hname. injection Hname as _ Hname.
    apply fileName_bru in Hname as [a ->].
    apply S_bind; [apply S_lift |]. intros content _ _ _ _.
    apply S_bind; [| intros; apply IH].
    rewrite !joinPath_bru, <- !app_assoc, <- !app_comm_cons.
    apply S_write. by destruct r.
Qed.

End TwoRuns.

Lemma folderName_parent (f : str) :
  endsWith f (js ".hurl") = true -> folderName f = js ".." -> f = js "...hurl".
Proof.
  unfold endsWith. intros [rest Hrest]%startsWith_app Hfolder.
  assert (Hf : f = rev rest ++ js ".hurl").
  { apply (f_equal (@rev N)) in Hrest.
    by rewrite rev_involutive, rev_app_distr, rev_involutive in Hrest. }
  subst f. unfold folderName in Hfolder.
  rewrite length_app in Hfolder.
  replace (length (rev rest) + length (js ".hurl") - 5)%nat
    with (length (rev rest)) in Hfolder by (simpl; lia).
  rewrite take_app_length in Hfolder.
  destruct (rev rest) as [|a [|b [|c l]]]; try done.
  simpl in Hfolder. injection Hfolder as Ha Hb.
  destruct (a =? 95); [done |]. destruct (b =? 95); [done |]. by subst.
Qed.

Lemma Sim_generateCollection (ROOT T T' : path) (d d' : str) (hurl : gmap str node) :
  hurl !! js "...hurl" = None ->
  Sim T T' d d' (HURL_DIR ROOT) hurl
    (generateCollection ROOT (T ++ [d])) (generateCollection ROOT (T' ++ [d'])).
Proof.
  intros Hnames. unfold generateCollection.
  rewrite !(joinPath_proper _ (js "bruno.json")),
    !(joinPath_proper _ (js "collection.bru")),
    !(joinPath_proper _ (js "environments")),
    !(joinPath_proper _ (js "local.bru")) by (simpl; lia).
  rewrite <- !app_assoc. simpl.
  apply S_bind; [apply (S_mkdir T T' d d' _ _ []) |]. intros _ _ _ _ _.
  apply S_bind; [by apply S_write |]. intros _ _ _ _ _.
  apply S_bind; [by apply S_write |]. intros _ _ _ _ _.
  apply S_bind; [apply S_mkdir |]. intros _ _ _ _ _.
  apply S_bind; [by apply S_write |]. intros _ _ _ _ _.
  apply S_bind; [apply S_readdir |]. intros entries s s1 Hgood Hread.
  unfold readdirSync in Hread. rewrite Hgood in Hread. injection Hread as _ <-.
  apply Sim_forEach. intros hurlFile Hin.
  apply In_sort, filter_In in Hin as [Hin Hhurl].
  rewrite (joinPath_proper _ hurlFile)
    by (apply endsWith_length in Hhurl; simpl in Hhurl; lia).
  apply S_bind.
  { unfold parseHurlFileAt. apply S_bind; [apply S_readFile |].
    intros; apply S_lift. }
  intros requests_ _ _ _ _.
  assert (Hfolder : folderName hurlFile <> js "..").
  { intros Hparent. apply folderName_parent in Hparent; [| done]. subst hurlFile.
    apply list_elem_of_In, list_elem_of_fmap in Hin as ([name entry] & Hname & Hin).
    apply elem_of_map_to_list in Hin. simpl in Hname. subst name. congruence. }
  unfold joinPath.
  destruct (str_eqb (folderName hurlFile) [] || str_eqb (folderName hurlFile) (js ".")).
  - apply S_bind; [apply (S_mkdir T T' d d' _ _ []) |]. intros _ _ _ _ _.
    apply (Sim_writeRequests T T' d d' _ _ []).
  - unfold str_eqb. rewrite bool_decide_eq_false_2 by done.
    rewrite <- !app_assoc. simpl.
    apply S_bind; [apply (S_mkdir T T' d d' _ _ [_]) |]. intros _ _ _ _ _.
    apply (Sim_writeRequests T T' d d' _ _ [_]).
Qed.

(** Check mode passes on what generate mode has just left: when a run of
    generate mode went through, no source file is named [...hurl], the
    scratch directory does not exist yet in a directory that does, and the
    scratch directory is neither above nor below the source and the target
    directory, then check mode on that file system returns without a
    report. *)
Theorem check_passes_after_generation (ROOT tmp : path) (now now' : N)
    (fs fs1 : node) (scratchParent : gmap str node) :
  main ROOT tmp now false fs = (fs1, Ok ()) ->
  lookupPath (HURL_DIR ROOT ++ [js "...hurl"]) fs1 = None ->
  lookupPath tmp fs1 = Some (Dir scratchParent) ->
  lookupPath (tempDir tmp now') fs1 = None ->
  ~ HURL_DIR ROOT `prefix_of` tempDir tmp now' ->
  ~ tempDir tmp now' `prefix_of` HURL_DIR ROOT ->
  ~ BRUNO_DIR ROOT `prefix_of` tempDir tmp now' ->
  ~ tempDir tmp now' `prefix_of` BRUNO_DIR ROOT ->
  (checkMode ROOT tmp now' fs1).2 = Ok ().
Proof.
  rewrite main_generate, tempDir_eq, BRUNO_DIR_eq.
  set (d := js "bruno"). set (d' := js "bruno-check-" ++ numberToString now').
  set (u := removeAt (ROOT ++ [d]) fs).
  intros Hmain Hnames Hparent Hfree Habove Hbelow Habove' Hbelow'.
  unfold mbind at 1 in Hmain. unfold io_bind at 1 in Hmain.
  destruct (generateCollection ROOT (ROOT ++ [d]) u) as [s1 [[]|e|c]] eqn:Hgen;
    [| done | done].
  unfold mbind at 1 in Hmain. unfold io_bind at 1 in Hmain.
  pose proof (collectFiles_state (ROOT ++ [d]) [] s1) as Hstate.
  destruct (collectFiles (ROOT ++ [d]) [] s1) as [s1' [files|e|c]] eqn:Hcol;
    [| done | done].
  simpl in Hstate. subst s1'. injection Hmain as ->.
  assert (Hsrc1 : ~ HURL_DIR ROOT `prefix_of` ROOT ++ [d]).
  { rewrite HURL_DIR_eq. intros Hpre. by apply prefix_snoc_same in Hpre. }
  assert (Hsrc2 : ~ ROOT ++ [d] `prefix_of` HURL_DIR ROOT).
  { rewrite HURL_DIR_eq. intros Hpre. by apply prefix_snoc_same in Hpre. }
  (* the source directory, before and after the first run *)
  destruct (generateCollection_needs_source ROOT ROOT d u fs1 Hsrc1 Hsrc2 Hgen)
    as [hurl Hsrc].
  assert (Hkept : lookupPath (HURL_DIR ROOT) fs1 = lookupPath (HURL_DIR ROOT) u).
  { pose proof (Writes_frame ROOT d (HURL_DIR ROOT) (HURL_DIR ROOT) Hsrc1 Hsrc2) as Hframe.
    specialize (Hframe ltac:(intros f Hbru Heq; rewrite HURL_DIR_eq in Heq;
                            apply app_inj_tail in Heq as [_ <-]; by vm_compute in Hbru)).
    specialize (Hframe _ _ (Writes_generateCollection ROOT ROOT d) u).
    by rewrite Hgen in Hframe. }
  assert (Hsrc' : lookupPath (HURL_DIR ROOT) fs1 = Some (Dir hurl)) by congruence.
  rewrite lookupPath_app, Hsrc' in Hnames. simpl in Hnames.
  assert (Hnone : hurl !! js "...hurl" = None) by (by destruct (hurl !! js "...hurl")).
  (* the target directory was not there when the first run began *)
  rewrite HURL_DIR_eq, lookupPath_app in Hsrc.
  destruct (lookupPath ROOT u) as [[|es]|] eqn:Hroot; try done.
  assert (Habsent : es !! d = None).
  { pose proof (removeAt_gone (ROOT ++ [d]) fs ltac:(by destruct ROOT)) as Hgone.
    fold u in Hgone. rewrite lookupPath_app, Hroot in Hgone. simpl in Hgone.
    by destruct (es !! d). }
  assert (Hfree' : scratchParent !! d' = None).
  { rewrite lookupPath_app, Hparent in Hfree. simpl in Hfree.
    by destruct (scratchParent !! d'). }
  assert (Htwin : twin ROOT tmp d d' (HURL_DIR ROOT) hurl u fs1).
  { split; [| split; congruence].
    exists es, scratchParent. split; [done |]. split; [done |]. congruence. }
  (* the second run, into the scratch directory *)
  destruct (Sim_run ROOT tmp d d' (HURL_DIR ROOT) hurl Hsrc1 Hsrc2 Habove Hbelow _ _
              (Sim_generateCollection ROOT ROOT tmp d d' hurl Hnone)
              u fs1 fs1 () Htwin Hgen)
    as (s2 & Hgen2 & (es1 & es2 & Hes1 & Hes2 & Hsame) & _).
  assert (Htarget : lookupPath (ROOT ++ [d]) s2 = lookupPath (ROOT ++ [d]) fs1).
  { pose proof (Writes_frame tmp d' (HURL_DIR ROOT) (ROOT ++ [d]) Habove' Hbelow') as Hframe.
    specialize (Hframe ltac:(intros f Hbru Heq;
                            apply app_inj_tail in Heq as [_ <-]; by vm_compute in Hbru)).
    specialize (Hframe _ _ (Writes_generateCollection ROOT tmp d') fs1).
    by rewrite Hgen2 in Hframe. }
  assert (Hscratch : lookupPath (tmp ++ [d']) s2 = lookupPath (ROOT ++ [d]) s2).
  { rewrite Htarget, !lookupPath_app, Hes1, Hes2. simpl. by rewrite Hsame. }
  (* both trees are collected to the same map *)
  pose proof (collectFiles_same (ROOT ++ [d]) [] s2 fs1 Htarget) as Hactual.
  rewrite Hcol in Hactual. simpl in Hactual.
  pose proof (collectFiles_state (ROOT ++ [d]) [] s2) as Hstate.
  pose proof (collectFiles_state (tmp ++ [d']) [] s2) as Hstate'.
  assert (Hexpected : (collectFiles (tmp ++ [d']) [] s2).2 = Ok files).
  { rewrite <- Hactual. unfold collectFiles. by rewrite Hscratch. }
  unfold checkMode, tryFinally. rewrite tempDir_eq, BRUNO_DIR_eq. fold d d'.
  unfold mbind at 1. unfold io_bind at 1. rewrite Hgen2.
  unfold mbind at 1. unfold io_bind at 1.
  destruct (collectFiles (tmp ++ [d']) [] s2) as [s3 r3].
  simpl in Hstate', Hexpected. subst s3 r3.
  unfold mbind at 1. unfold io_bind at 1.
  destruct (collectFiles (ROOT ++ [d]) [] s2) as [s4 r4].
  simpl in Hstate, Hactual. subst s4 r4.
  rewrite (proj2 (diffs_nil files files) eq_refl). reflexivity.
Qed.

Lemma check_passes_after_generation_witness :
  (checkMode exampleRoot exampleTmp exampleNow
     (main exampleRoot exampleTmp exampleNow false exampleFs).1).2 = Ok ().
Proof.
  apply (check_passes_after_generation exampleRoot exampleTmp exampleNow exampleNow
           exampleFs _ ∅).
  - vm_compute. reflexivity.
  - vm_compute. reflexivity.
  - vm_compute. reflexivity.
  - vm_compute. reflexivity.
  - intros [k Hk]. vm_compute in Hk. discriminate Hk.
  - intros [k Hk]. vm_compute in Hk. discriminate Hk.
  - intros [k Hk]. vm_compute in Hk. discriminate Hk.
  - intros [k Hk]. vm_compute in Hk. discriminate Hk.
Defined.

(** ** The fixed files of a collection *)

Lemma mkdirp_not_through_file (r : path) (t : str) : mkdirp r (File t) = None.
Proof. by destruct r. Qed.

Lemma writeAt_not_through_file (r : path) (text t : str) : writeAt r text (File t) = None.
Proof. destruct r as [|x [|y r]]; done. Qed.

Lemma mkdirp_keeps_file (p q : path) (n n1 : node) (t : str) :
  mkdirp p n = Some n1 -> lookupPath q n = Some (File t) ->
  lookupPath q n1 = Some (File t).
Proof.
  intros Hmk Hq. destruct (decide (q `prefix_of` p)) as [[r ->] | Hpre].
  - pose proof (mkdirp_at q r n (File t) Hq) as Hat.
    rewrite mkdirp_not_through_file in Hat. congruence.
  - by rewrite (mkdirp_frame _ _ _ _ Hmk Hpre).
Qed.

Lemma writeAt_keeps_file (p q : path) (text : str) (n n1 : node) (t : str) :
  writeAt p text n = Some n1 -> p <> q -> lookupPath q n = Some (File t) ->
  lookupPath q n1 = Some (File t).
Proof.
  intros Hw Hne Hq. destruct (decide (q `prefix_of` p)) as [[r ->] | Hpre].
  - assert (Hr : r <> []) by (intros ->; by rewrite app_nil_r in Hne).
    pose proof (writeAt_at q r text Hr n (File t) Hq) as Hat.
    rewrite writeAt_not_through_file in Hat. congruence.
  - by rewrite (writeAt_frame _ _ _ _ _ Hw Hpre).
Qed.

(** A regular file at [q] is still there, with the same text, after any
    run of such a computation that goes through. *)
Lemma Spares_run (q : path) (t : str) {A} (m : io A) :
  Spares q m ->
  forall s s1 a,
    m s = (s1, Ok a) -> lookupPath q s = Some (File t) ->
    lookupPath q s1 = Some (File t).
Proof.
  intros Hm.
  induction Hm as [A a|A o|A B m k Hm IHm Hk IHk|p|p text Hp|p|p];
    intros s s1 res Hrun Hq.
  - by injection Hrun as <- _.
  - unfold lift in Hrun. by injection Hrun as <- _.
  - unfold mbind, io_bind in Hrun.
    destruct (m s) as [s0 [a|e|c]] eqn:Hms; [| done | done].
    exact (IHk a s s0 Hms s0 s1 res Hrun (IHm s s0 a Hms Hq)).
  - unfold mkdirSync, update in Hrun.
    destruct (mkdirp p s) as [n1|] eqn:Hmk; [| done]. injection Hrun as <- _.
    by apply (mkdirp_keeps_file p q s n1 t).
  - unfold writeFileSync, update in Hrun.
    destruct (writeAt p text s) as [n1|] eqn:Hw; [| done]. injection Hrun as <- _.
    by apply (writeAt_keeps_file p q text s n1 t).
  - unfold readdirSync in Hrun.
    destruct (lookupPath p s) as [[|]|]; try done. by injection Hrun as <- _.
  - unfold readFileSync in Hrun.
    destruct (lookupPath p s) as [[|]|]; try done. by injection Hrun as <- _.
Qed.

Lemma Spares_forEach (q : path) {A} (l : list A) (f : A -> io unit) :
  (forall x, In x l -> Spares q (f x)) -> Spares q (forEach l f).
Proof.
  induction l as [|a l IH]; intros Hf; simpl.
  - apply Sp_ret.
  - apply Sp_bind; [apply Hf; by left |].
    intros _ _ _ _. apply IH. intros x Hx. apply Hf. by right.
Qed.

Lemma fileName_starts_with_digit (request : Request) (index : N) (m u : option str)
    (name : str) :
  fileName request index m u = Ok name ->
  exists c rest, name = c :: rest /\ isDigit c = true.
Proof.
  intros (slug & _ & ->)%fileName_shape.
  pose proof (numberToString_nonempty (index + 1)) as Hne.
  pose proof (padStart2_digits _ (numberToString_digits (index + 1))) as Hdig.
  destruct (numberToString (index + 1)) as [|c [|c' l]]; [done | |];
    simpl in *; apply andb_true_iff in Hdig as [Hc _]; eauto.
Qed.

Lemma Spares_writeRequests (q0 : path) (f : str) (folderPath : path)
    (requests_ : list Request) :
  (forall c rest, f = c :: rest -> isDigit c = false) ->
  forall i, Spares (q0 ++ [f]) (writeRequests folderPath requests_ i).
Proof.
  intros Hf. induction requests_ as [|req rest IH]; intros i; simpl.
  - apply Sp_ret.
  - apply Sp_bind; [apply Sp_lift |]. intros name s s1 Hname.
    unfold lift in Hname. injection Hname as _ Hname.
    destruct (fileName_starts_with_digit _ _ _ _ _ Hname) as (c & tl & Hc & Hdig).
    apply fileName_bru in Hname as [a ->].
    apply Sp_bind; [apply Sp_lift |]. intros content _ _ _.
    apply Sp_bind; [| intros; apply IH].
    rewrite joinPath_bru. apply Sp_write.
    intros Heq. apply app_inj_tail in Heq as [_ Heq].
    rewrite <- Heq in Hf. specialize (Hf c tl Hc). congruence.
Qed.

Lemma Spares_requestLoop (ROOT outputDir q0 : path) (f : str) (entries : list str) :
  (forall c rest, f = c :: rest -> isDigit c = false) ->
  Spares (q0 ++ [f]) (requestLoop ROOT outputDir entries).
Proof.
  intros Hf. unfold requestLoop. apply Spares_forEach. intros hurlFile _.
  apply Sp_bind.
  { unfold parseHurlFileAt. apply Sp_bind; [apply Sp_readFile |].
    intros; apply Sp_lift. }
  intros requests_ _ _ _.
  apply Sp_bind; [apply Sp_mkdir |]. intros _ _ _ _.
  by apply Spares_writeRequests.
Qed.

Lemma writeAt_writes (p : path) (text : str) (n n1 : node) :
  writeAt p text n = Some n1 -> lookupPath p n1 = Some (File text).
Proof.
  revert n n1. induction p as [|x p IH]; intros n n1 Hw; [done |].
  destruct n as [|es]; [by destruct p |].
  destruct p as [|y p].
  - simpl in Hw. destruct (es !! x) as [[|]|]; simplify_eq; simpl;
      by rewrite lookup_insert_eq.
  - rewrite writeAt_deeper in Hw. destruct (es !! x) as [c|]; [| done].
    destruct (writeAt (y :: p) text c) as [c'|] eqn:Hc; [| done].
    simplify_eq. change (lookupPath (x :: y :: p) (Dir (<[x:=c']> es)))
      with (match <[x:=c']> es !! x with
            | Some c0 => lookupPath (y :: p) c0
            | None => None
            end).
    rewrite lookup_insert_eq. by apply (IH c).
Qed.

(** A generation that goes through leaves the three fixed files of a
    collection in the output directory with their fixed texts: no request
    file and no folder made afterwards takes the place of any of them. *)
Theorem generateCollection_writes_fixed_files (ROOT outputDir : path) (s s1 : node) :
  generateCollection ROOT outputDir s = (s1, Ok ()) ->
  lookupPath (outputDir ++ [js "bruno.json"]) s1 = Some (File brunoJson)
  /\ lookupPath (outputDir ++ [js "collection.bru"]) s1 = Some (File collectionBru)
  /\ lookupPath (outputDir ++ [js "environments"; js "local.bru"]) s1
     = Some (File localBru).
Proof.
  unfold generateCollection.
  rewrite !(joinPath_proper _ (js "bruno.json")),
    !(joinPath_proper _ (js "collection.bru")),
    !(joinPath_proper _ (js "environments")),
    !(joinPath_proper _ (js "local.bru")) by (simpl; lia).
  rewrite <- !app_assoc. simpl.
  unfold mbind, io_bind, mkdirSync, writeFileSync, update.
  destruct (mkdirp outputDir s) as [u1|] eqn:E1; [| done].
  destruct (writeAt _ brunoJson u1) as [u2|] eqn:E2; [| done].
  destruct (writeAt _ collectionBru u2) as [u3|] eqn:E3; [| done].
  destruct (mkdirp _ u3) as [u4|] eqn:E4; [| done].
  destruct (writeAt _ localBru u4) as [u5|] eqn:E5; [| done].
  unfold readdirSync.
  destruct (lookupPath (HURL_DIR ROOT) u5) as [[|entries]|] eqn:E6; [done | | done].
  intros Hloop.
  assert (H1 : lookupPath (outputDir ++ [js "bruno.json"]) u5 = Some (File brunoJson)).
  { apply (writeAt_keeps_file _ _ _ _ _ _ E5).
    { intros Heq. apply (f_equal length) in Heq. rewrite !length_app in Heq.
      simpl in Heq. lia. }
    apply (mkdirp_keeps_file _ _ _ _ _ E4).
    apply (writeAt_keeps_file _ _ _ _ _ _ E3).
    { intros Heq. by apply app_inj_tail in Heq as [_ Heq]. }
    by apply writeAt_writes in E2. }
  assert (H2 : lookupPath (outputDir ++ [js "collection.bru"]) u5
               = Some (File collectionBru)).
  { apply (writeAt_keeps_file _ _ _ _ _ _ E5).
    { intros Heq. apply (f_equal length) in Heq. rewrite !length_app in Heq.
      simpl in Heq. lia. }
    apply (mkdirp_keeps_file _ _ _ _ _ E4).
    by apply writeAt_writes in E3. }
  assert (H3 : lookupPath (outputDir ++ [js "environments"; js "local.bru"]) u5
               = Some (File localBru))
    by (by apply writeAt_writes in E5).
  change (requestLoop ROOT outputDir (map fst (map_to_list entries)) u5 = (s1, Ok ()))
    in Hloop.
  assert (Hletter : forall f, In f [js "bruno.json"; js "collection.bru"; js "local.bru"] ->
                    forall c rest, f = c :: rest -> isDigit c = false).
  { intros f [<- | [<- | [<- | []]]] c rest Heq; vm_compute in Heq;
      by injection Heq as <- _. }
  split; [| split].
  - apply (Spares_run _ _ _ (Spares_requestLoop ROOT outputDir outputDir (js "bruno.json") _
                               (Hletter (js "bruno.json") ltac:(simpl; auto))) _ _ _ Hloop H1).
  - apply (Spares_run _ _ _ (Spares_requestLoop ROOT outputDir outputDir (js "collection.bru") _
                               (Hletter (js "collection.bru") ltac:(simpl; auto))) _ _ _ Hloop H2).
  - change (outputDir ++ [js "environments"; js "local.bru"])
      with (outputDir ++ [js "environments"] ++ [js "local.bru"]) in *.
    rewrite app_assoc in *.
    apply (Spares_run _ _ _ (Spares_requestLoop ROOT outputDir _ (js "local.bru") _
                               (Hletter (js "local.bru") ltac:(simpl; auto))) _ _ _ Hloop H3).
Qed.

Lemma generateCollection_writes_fixed_files_witness :
  lookupPath (BRUNO_DIR exampleRoot ++ [js "bruno.json"])
    (generateCollection exampleRoot (BRUNO_DIR exampleRoot) exampleFs).1
  = Some (File brunoJson)
  /\ lookupPath (BRUNO_DIR exampleRoot ++ [js "collection.bru"])
       (generateCollection exampleRoot (BRUNO_DIR exampleRoot) exampleFs).1
     = Some (File collectionBru)
  /\ lookupPath (BRUNO_DIR exampleRoot ++ [js "environments"; js "local.bru"])
       (generateCollection exampleRoot (BRUNO_DIR exampleRoot) exampleFs).1
     = Some (File localBru).
Proof.
  apply (generateCollection_writes_fixed_files exampleRoot (BRUNO_DIR exampleRoot)
           exampleFs).
  vm_compute. reflexivity.
Defined.

(** ** Values and placeholders *)

Lemma indexOfAt_found (needle s : str) (i : Z) :
  (0 <= i)%Z ->
  (0 <= indexOfAt s needle i)%Z <-> exists x y, s = x ++ needle ++ y.
Proof.
  revert i. induction s as [|c s IH]; intros i Hi; cbn [indexOfAt].
  - destruct (startsWith [] needle) eqn:Hs.
    + apply startsWith_app in Hs as [rest Hrest]. split; [| lia].
      intros _. exists [], rest. done.
    + split; [lia |]. intros (x & y & Heq).
      symmetry in Heq. apply app_eq_nil in Heq as [-> Heq].
      apply app_eq_nil in Heq as [-> ->]. done.
  - destruct (startsWith (c :: s) needle) eqn:Hs.
    + apply startsWith_app in Hs as [rest Hrest]. split; [| lia].
      intros _. exists [], rest. done.
    + rewrite (IH (i + 1)%Z) by lia. split.
      * intros (x & y & ->). by exists (c :: x), y.
      * intros (x & y & Heq). destruct x as [|c' x].
        -- simpl in Heq. rewrite (proj2 (startsWith_app _ _)) in Hs; [done |].
           by exists y.
        -- injection Heq as _ ->. by exists x, y.
Qed.

Lemma includes_iff (s needle : str) :
  includes s needle = true <-> exists x y, s = x ++ needle ++ y.
Proof.
  unfold includes, indexOf.
  assert (Z.min (Z.max 0 0) (len s) = 0%Z) as -> by (unfold len; lia).
  change (drop (Z.to_nat 0) s) with s.
  rewrite <- (indexOfAt_found needle s 0) by lia. apply Z.leb_le.
Qed.

Lemma slice_substring (s : str) (a b : Z) :
  exists x y, s = x ++ slice s a b ++ y.
Proof.
  unfold slice. eexists (take _ s), (drop _ (drop _ s)).
  by rewrite take_drop, take_drop.
Qed.

Lemma includes_slice (s needle : str) (a b : Z) :
  includes s needle = false -> includes (slice s a b) needle = false.
Proof.
  intros Hs. apply not_true_iff_false. intros (x & y & Heq)%includes_iff.
  apply not_true_iff_false in Hs. apply Hs, includes_iff.
  destruct (slice_substring s a b) as (x0 & y0 & Hsub).
  exists (x0 ++ x), (y ++ y0). rewrite Hsub at 1. rewrite Heq.
  by rewrite <- !app_assoc.
Qed.

Lemma reVar_needs_braces (t : str) :
  includes t (js "{{") = false -> matchAll reVar t = None.
Proof.
  intros Ht. unfold matchAll, reVar. cbn [exec].
  destruct (startsWith t (js "{{")) eqn:Hs; [| done].
  apply startsWith_app in Hs as [rest ->].
  apply not_true_iff_false in Ht. destruct Ht. apply includes_iff. by exists [], rest.
Qed.

(** A value that holds no [{{] is rendered as it stands: for [null],
    [true], [false], numbers, quoted strings and everything else without a
    placeholder the expression is the value itself. *)
Theorem values_without_placeholder_are_kept (rawValue : str) :
  includes rawValue (js "{{") = false ->
  expr (transformValue rawValue) = rawValue.
Proof.
  intros Hraw. unfold transformValue.
  destruct (str_eqb rawValue (js "null")) eqn:Hnull.
  { apply bool_decide_eq_true in Hnull. by subst. }
  destruct (str_eqb rawValue (js "true")) eqn:Htrue.
  { apply bool_decide_eq_true in Htrue. by subst. }
  destruct (str_eqb rawValue (js "false")) eqn:Hfalse.
  { apply bool_decide_eq_true in Hfalse. by subst. }
  destruct (test reInt rawValue); [done |].
  destruct (test reDec rawValue); [done |].
  rewrite (reVar_needs_braces rawValue Hraw).
  destruct (startsWith rawValue dq && endsWith rawValue dq); [| done].
  pose proof (includes_slice rawValue (js "{{") 1 (-1) Hraw) as Hinner.
  by rewrite (reVar_needs_braces _ Hinner), Hinner.
Qed.

Lemma values_without_placeholder_are_kept_witness :
  expr (transformValue (js "'a plain {string}'")) = js "'a plain {string}'".
Proof.
  apply (values_without_placeholder_are_kept (js "'a plain {string}'")).
  vm_compute. reflexivity.
Defined.
